(** * Postport: the chat-reply extraction pipeline and the map-pane lifecycle

    A shallow embedding of [src/routes/+page.svelte].  The component is one
    script block: [sendMessage] (the chat pipeline), [loadGoogleMaps],
    [updateMapPins], [setMapPins] and three reactive statements.  The
    browser built-ins it leans on ([String.prototype.trim], the regular
    expression engine, [JSON.parse], property access) are modelled in the
    first modules, the component itself in [Module Postport]. *)

From Stdlib Require Import List NArith ZArith Bool String Ascii Lia Arith.
Import ListNotations.

(** ** JavaScript strings

    A JavaScript string is a sequence of UTF-16 code units; [trim] and a
    regular expression without the [u] flag both work on code units. *)
Module JSString.

Definition jsstring : Type := list N.

(** Code units of an ASCII literal of the source. *)
Definition lit (s : string) : jsstring :=
  List.map N_of_ascii (list_ascii_of_string s).

(** The same, with every apostrophe of [s] standing for a quotation mark
    (code unit 34): JSON texts are written with apostrophes below. *)
Definition litq (s : string) : jsstring :=
  List.map (fun c => if (c =? 39)%N then 34%N else c) (lit s).

(** ECMAScript [WhiteSpace] and [LineTerminator]: what [trim] strips and
    what the class escape [\s] matches. *)
Definition isWhiteSpace (c : N) : bool :=
  ((9 <=? c) && (c <=? 13) || (c =? 32) || (c =? 160) || (c =? 5760)
   || (8192 <=? c) && (c <=? 8202) || (c =? 8232) || (c =? 8233)
   || (c =? 8239) || (c =? 8287) || (c =? 12288) || (c =? 65279))%N.

Fixpoint trimStart (s : jsstring) : jsstring :=
  match s with
  | c :: s' => if isWhiteSpace c then trimStart s' else s
  | [] => []
  end.

Definition trimEnd (s : jsstring) : jsstring := rev (trimStart (rev s)).

Definition trim (s : jsstring) : jsstring := trimEnd (trimStart s).

(** [s.substring(a, b)] for [a <= b]. *)
Definition substring (a b : nat) (s : jsstring) : jsstring :=
  firstn (b - a) (skipn a s).

Fixpoint startsWith (p s : jsstring) : bool :=
  match p, s with
  | [], _ => true
  | c :: p', x :: s' => (x =? c)%N && startsWith p' s'
  | _ :: _, [] => false
  end.

(** [p] occurs in [s] at offset [n] and at no smaller offset. *)
Definition firstAt (p s : jsstring) (n : nat) : bool :=
  forallb (fun i => negb (startsWith p (skipn i s))) (seq 0 n)
  && startsWith p (skipn n s).

Definition startsWithSpace (s : jsstring) : bool :=
  match s with c :: _ => isWhiteSpace c | [] => false end.

(** [n] is [s] trimmed, said without [trim]: [s] is [n] between two runs
    of white space, and [n] neither starts nor ends with white space. *)
Definition Trimmed (s n : jsstring) : Prop :=
  exists lead trail,
    s = lead ++ n ++ trail
    /\ forallb isWhiteSpace lead = true
    /\ forallb isWhiteSpace trail = true
    /\ startsWithSpace n = false
    /\ startsWithSpace (rev n) = false.

End JSString.
Export JSString.

(** ** Regular expressions

    The fragment of the backtracking matcher that the pattern of the source
    needs: literal characters, a starred character class (greedy [*] or lazy
    [*?]) and one capture group.  Priorities are those of ECMAScript: a
    greedy star first tries one more character, a lazy star first tries the
    rest of the pattern; a search tries start positions from the left. *)
Module Regex.

Inductive atom : Type :=
| Chr (c : N)
| Star (greedy : bool) (cls : N -> bool)
| GroupOpen
| GroupClose.

(** End of the match, and the bounds of the capture group. *)
Record result : Type := Result { res_end : nat; cap_start : nat; cap_end : nat }.

Definition orelse {A : Type} (a b : option A) : option A :=
  match a with Some _ => a | None => b end.

Fixpoint star (greedy : bool) (cls : N -> bool)
    (k : jsstring -> nat -> option result) (s : jsstring) (pos : nat)
    : option result :=
  match s with
  | x :: s' =>
      if cls x then
        if greedy then orelse (star greedy cls k s' (S pos)) (k s pos)
        else orelse (k s pos) (star greedy cls k s' (S pos))
      else k s pos
  | [] => k s pos
  end.

Fixpoint matchHere (re : list atom) (gs ge : nat) (s : jsstring) (pos : nat)
    : option result :=
  match re with
  | [] => Some (Result pos gs ge)
  | Chr c :: re' =>
      match s with
      | x :: s' => if (x =? c)%N then matchHere re' gs ge s' (S pos) else None
      | [] => None
      end
  | Star g cls :: re' => star g cls (matchHere re' gs ge) s pos
  | GroupOpen :: re' => matchHere re' pos ge s pos
  | GroupClose :: re' => matchHere re' gs pos s pos
  end.

(** A successful match: [index], as in the match object, and the result. *)
Fixpoint search (re : list atom) (s : jsstring) (pos : nat)
    : option (nat * result) :=
  match matchHere re pos pos s pos with
  | Some r => Some (pos, r)
  | None =>
      match s with
      | _ :: s' => search re s' (S pos)
      | [] => None
      end
  end.

(** [text.match(re)] for a pattern without the [g] flag. *)
Definition exec (re : list atom) (text : jsstring) : option (nat * result) :=
  search re text 0.

(** [match[1]]. *)
Definition group1 (text : jsstring) (m : nat * result) : jsstring :=
  substring (cap_start (snd m)) (cap_end (snd m)) text.

(** [text.replace(re, '')] once [re] has matched as [m]: without the [g]
    flag only that first match is cut out. *)
Definition removeMatch (text : jsstring) (m : nat * result) : jsstring :=
  firstn (fst m) text ++ skipn (res_end (snd m)) text.

Definition chars (s : jsstring) : list atom := List.map Chr s.

End Regex.

(** ** JavaScript values

    The values that [JSON.parse] can return, and [undefined], which
    property access adds. *)
Module JSValue.

(** A Number value, that is a double: a finite one is given by the exact
    decimal value it has, [(-1)^neg * digits * 10^exp10], written in one
    way only (a whole number has [exp10 = 0], a fraction has no trailing
    zero digit, zero is [digits = 0] and [exp10 = 0]); the other values
    that [JSON.parse] can return are the two infinities. *)
Inductive number : Type :=
| Number (neg : bool) (digits : N) (exp10 : Z)
| Infinity (neg : bool).

(** Dropping trailing zero digits of a fraction. *)
Fixpoint stripZeros (fuel : nat) (m : N) (e : Z) : N * Z :=
  match fuel with
  | O => (m, e)
  | S fuel' =>
      if ((e <? 0)%Z && (m mod 10 =? 0)%N)%bool
      then stripZeros fuel' (m / 10)%N (e + 1)%Z
      else (m, e)
  end.

(** The Number value of the decimal [m * 10^e]: the nearest double, ties
    to even, infinite from [2^1024] on.  With [k] the exponent of the last
    place ([-1074] at least) the double is [q * 2^k], [q] being the
    quotient rounded. *)
Definition roundToDouble (sign : bool) (m : N) (e : Z) : number :=
  (if (m =? 0)%N then Number sign 0 0
   else
     let num := if 0 <=? e then Z.of_N m * 10 ^ e else Z.of_N m in
     let den := if 0 <=? e then 1 else 10 ^ (- e) in
     let l := Z.log2 num - Z.log2 den in
     let reaches :=
       if 0 <=? l then den * 2 ^ l <=? num else den <=? num * 2 ^ (- l) in
     let b := if reaches then l else l - 1 in
     let k := Z.max (b - 52) (-1074) in
     let n' := if 0 <=? k then num else num * 2 ^ (- k) in
     let d' := if 0 <=? k then den * 2 ^ k else den in
     let q0 := n' / d' in
     let r := n' mod d' in
     let q :=
       if ((d' <? 2 * r) || ((d' =? 2 * r) && Z.odd q0))%bool
       then q0 + 1 else q0 in
     if ((971 <? k) || ((k =? 971) && (2 ^ 53 <=? q)))%bool
     then Infinity sign
     else if q =? 0 then Number sign 0 0
     else if 0 <=? k then Number sign (Z.to_N (q * 2 ^ k)) 0
     else
       let (m', e') :=
         stripZeros (Z.to_nat (- k)) (Z.to_N (q * 5 ^ (- k))) k in
       Number sign m' e')%Z.

#[local] Unset Elimination Schemes.
Inductive value : Type :=
| VUndefined
| VNull
| VBool (b : bool)
| VNum (d : number)
| VStr (s : jsstring)
| VArr (elems : list value)
| VObj (fields : list (jsstring * value)).
#[local] Set Elimination Schemes.

Fixpoint str_eqb (a b : jsstring) : bool :=
  match a, b with
  | [], [] => true
  | x :: a', y :: b' => (x =? y)%N && str_eqb a' b'
  | _, _ => false
  end.

(** Own property [k] of an object given as its fields. *)
Fixpoint lookup (k : jsstring) (fields : list (jsstring * value)) : value :=
  match fields with
  | [] => VUndefined
  | (k', v) :: rest => if str_eqb k k' then v else lookup k rest
  end.

(** Defining property [k]: an existing property keeps its place and takes
    the new value, a new one goes last. *)
Fixpoint define (k : jsstring) (v : value) (fields : list (jsstring * value))
    : list (jsstring * value) :=
  match fields with
  | [] => [(k, v)]
  | (k', v') :: rest =>
      if str_eqb k k' then (k, v) :: rest else (k', v') :: define k v rest
  end.

(** ToBoolean. *)
Definition truthy (v : value) : bool :=
  match v with
  | VUndefined | VNull => false
  | VBool b => b
  | VNum (Number _ digits _) => negb (digits =? 0)%N
  | VNum (Infinity _) => true
  | VStr s => match s with [] => false | _ => true end
  | VArr _ | VObj _ => true
  end.

Definition nullish (v : value) : bool :=
  match v with VUndefined | VNull => true | _ => false end.

(** [a && b], [a || b] and [a ?? b] on values already evaluated (the
    operands of the source have no effects). *)
Definition js_and (a b : value) : value := if truthy a then b else a.
Definition js_or (a b : value) : value := if truthy a then a else b.
Definition coalesce (a b : value) : value := if nullish a then b else a.

(** [v.k] for the property names of the source ([candidates], [content],
    [parts], [text], [lat], [lng], [latitude], [longitude], [label], [name],
    [icon], [description]): none of them is defined on a built-in
    prototype, so only an object's own fields can answer.  [None] is the
    TypeError of reading a property of [null] or [undefined]. *)
Definition get (v : value) (k : jsstring) : option value :=
  match v with
  | VUndefined | VNull => None
  | VObj fields => Some (lookup k fields)
  | _ => Some VUndefined
  end.

(** [v?.k]. *)
Definition get_opt (v : value) (k : jsstring) : value :=
  match get v k with Some x => x | None => VUndefined end.

(** [v?.[0]]. *)
Definition index0_opt (v : value) : value :=
  match v with
  | VArr (x :: _) => x
  | VStr (c :: _) => VStr [c]
  | VObj fields => lookup (lit "0") fields
  | _ => VUndefined
  end.

Definition isArray (v : value) : bool :=
  match v with VArr _ => true | _ => false end.

End JSValue.
Export JSValue.

(** ** JSON.parse

    The built-in, as a pushdown automaton over the code units: a lexer that
    turns the text into tokens and a parser with an explicit stack of open
    arrays and objects.  Both are total; [None] is the SyntaxError. *)
Module JSON.

Inductive token : Type :=
| TLBracket | TRBracket | TLBrace | TRBrace | TColon | TComma
| TString (s : jsstring)
| TNumber (d : number)
| TTrue | TFalse | TNull.

Definition isDigit (c : N) : bool := ((48 <=? c) && (c <=? 57))%N.

(** The characters of number and keyword lexemes. *)
Definition isWord (c : N) : bool :=
  (isDigit c || (97 <=? c) && (c <=? 122) || (65 <=? c) && (c <=? 90)
   || (c =? 43) || (c =? 45) || (c =? 46))%N.

(** JSON white space is only space, tab, line feed and carriage return. *)
Definition isJsonSpace (c : N) : bool :=
  ((c =? 32) || (c =? 9) || (c =? 10) || (c =? 13))%N.

Definition hexDigit (c : N) : option N :=
  if isDigit c then Some (c - 48)%N
  else if ((97 <=? c) && (c <=? 102))%N then Some (c - 87)%N
  else if ((65 <=? c) && (c <=? 70))%N then Some (c - 55)%N
  else None.

Fixpoint span (p : N -> bool) (s : jsstring) : jsstring * jsstring :=
  match s with
  | c :: s' =>
      if p c then let (a, b) := span p s' in (c :: a, b) else ([], s)
  | [] => ([], [])
  end.

Definition decimal (ds : jsstring) : N :=
  fold_left (fun acc c => (10 * acc + (c - 48))%N) ds 0%N.

(** A JSON number: an optional minus sign, an integer part without a
    leading zero, an optional fraction, an optional exponent.  Its value
    is the double nearest to the decimal that is written. *)
Definition parseNumber (s : jsstring) : option number :=
  let (sign, s1) :=
    match s with
    | c :: s' => if (c =? 45)%N then (true, s') else (false, s)
    | [] => (false, s)
    end in
  let (int, s2) := span isDigit s1 in
  match int with
  | [] => None
  | d :: more =>
      if ((d =? 48)%N && match more with [] => false | _ => true end)%bool
      then None
      else
        let frac_rest :=
          match s2 with
          | c :: s' =>
              if (c =? 46)%N then
                let (frac, s3) := span isDigit s' in
                match frac with [] => None | _ => Some (frac, s3) end
              else Some ([], s2)
          | [] => Some ([], s2)
          end in
        match frac_rest with
        | None => None
        | Some (frac, s3) =>
            let mant := decimal (int ++ frac) in
            let shift := Z.of_nat (List.length frac) in
            match s3 with
            | [] => Some (roundToDouble sign mant (- shift))
            | c :: s4 =>
                if ((c =? 101) || (c =? 69))%N then
                  let (esign, s5) :=
                    match s4 with
                    | c' :: s' =>
                        if (c' =? 45)%N then (true, s')
                        else if (c' =? 43)%N then (false, s')
                        else (false, s4)
                    | [] => (false, s4)
                    end in
                  let (ex, s6) := span isDigit s5 in
                  match ex, s6 with
                  | _ :: _, [] =>
                      let e := Z.of_N (decimal ex) in
                      Some (roundToDouble sign mant
                              ((if esign then - e else e) - shift))
                  | _, _ => None
                  end
                else None
            end
        end
  end.

Definition wordToken (w : jsstring) : option token :=
  if str_eqb w (lit "true") then Some TTrue
  else if str_eqb w (lit "false") then Some TFalse
  else if str_eqb w (lit "null") then Some TNull
  else option_map TNumber (parseNumber w).

(** Lexer states; accumulators are kept reversed. *)
Inductive lexer : Type :=
| LIdle
| LWord (acc : jsstring)
| LString (acc : jsstring)
| LEscape (acc : jsstring)
| LHex (acc : jsstring) (todo : nat) (code : N).

Definition lexIdle (c : N) : option (lexer * list token) :=
  if isJsonSpace c then Some (LIdle, [])
  else if (c =? 91)%N then Some (LIdle, [TLBracket])
  else if (c =? 93)%N then Some (LIdle, [TRBracket])
  else if (c =? 123)%N then Some (LIdle, [TLBrace])
  else if (c =? 125)%N then Some (LIdle, [TRBrace])
  else if (c =? 58)%N then Some (LIdle, [TColon])
  else if (c =? 44)%N then Some (LIdle, [TComma])
  else if (c =? 34)%N then Some (LString [], [])
  else if isWord c then Some (LWord [c], [])
  else None.

Definition unescape (c : N) : option N :=
  if (c =? 34)%N then Some 34%N          (* quotation mark *)
  else if (c =? 92)%N then Some 92%N     (* reverse solidus *)
  else if (c =? 47)%N then Some 47%N     (* solidus *)
  else if (c =? 98)%N then Some 8%N      (* backspace *)
  else if (c =? 102)%N then Some 12%N    (* form feed *)
  else if (c =? 110)%N then Some 10%N    (* line feed *)
  else if (c =? 114)%N then Some 13%N    (* carriage return *)
  else if (c =? 116)%N then Some 9%N     (* tab *)
  else None.

Definition lexStep (st : lexer) (c : N) : option (lexer * list token) :=
  match st with
  | LIdle => lexIdle c
  | LWord acc =>
      if isWord c then Some (LWord (c :: acc), [])
      else
        match wordToken (rev acc), lexIdle c with
        | Some t, Some (st', ts) => Some (st', t :: ts)
        | _, _ => None
        end
  | LString acc =>
      if (c =? 34)%N then Some (LIdle, [TString (rev acc)])
      else if (c =? 92)%N then Some (LEscape acc, [])
      else if (c <? 32)%N then None
      else Some (LString (c :: acc), [])
  | LEscape acc =>
      if (c =? 117)%N then Some (LHex acc 4 0%N, [])
      else option_map (fun x => (LString (x :: acc), [])) (unescape c)
  | LHex acc todo code =>
      match hexDigit c with
      | None => None
      | Some h =>
          let code' := (16 * code + h)%N in
          match todo with
          | 1 => Some (LString (code' :: acc), [])
          | _ => Some (LHex acc (pred todo) code', [])
          end
      end
  end.

Fixpoint lexFrom (st : lexer) (s : jsstring) : option (list token) :=
  match s with
  | c :: s' =>
      match lexStep st c with
      | Some (st', ts) => option_map (app ts) (lexFrom st' s')
      | None => None
      end
  | [] =>
      match st with
      | LIdle => Some []
      | LWord acc => option_map (fun t => [t]) (wordToken (rev acc))
      | _ => None
      end
  end.

(** An array or an object still open: what it holds so far, and for an
    object the key whose value is being read. *)
Inductive frame : Type :=
| FArr (done : list value)
| FObj (done : list (jsstring * value)) (key : option jsstring).

Inductive mode : Type :=
| MValue        (* a value must follow *)
| MArrStart     (* after [: a value or ] *)
| MObjStart     (* after {: a key or } *)
| MObjKey       (* after , in an object: a key *)
| MObjColon     (* after a key: the colon *)
| MAfter        (* after a value in a container: , or the closer *)
| MDone (v : value).

Definition deliver (v : value) (stack : list frame)
    : option (mode * list frame) :=
  match stack with
  | [] => Some (MDone v, [])
  | FArr done :: below => Some (MAfter, FArr (v :: done) :: below)
  | FObj done (Some k) :: below =>
      Some (MAfter, FObj (define k v done) None :: below)
  | FObj _ None :: _ => None
  end.

Definition startValue (t : token) (stack : list frame)
    : option (mode * list frame) :=
  match t with
  | TLBracket => Some (MArrStart, FArr [] :: stack)
  | TLBrace => Some (MObjStart, FObj [] None :: stack)
  | TString s => deliver (VStr s) stack
  | TNumber d => deliver (VNum d) stack
  | TTrue => deliver (VBool true) stack
  | TFalse => deliver (VBool false) stack
  | TNull => deliver VNull stack
  | _ => None
  end.

Definition closeTop (t : token) (stack : list frame)
    : option (mode * list frame) :=
  match t, stack with
  | TRBracket, FArr done :: below => deliver (VArr (rev done)) below
  | TRBrace, FObj done None :: below => deliver (VObj done) below
  | _, _ => None
  end.

Definition takeKey (t : token) (stack : list frame)
    : option (mode * list frame) :=
  match t, stack with
  | TString k, FObj done None :: below =>
      Some (MObjColon, FObj done (Some k) :: below)
  | _, _ => None
  end.

Definition parseStep (m : mode) (stack : list frame) (t : token)
    : option (mode * list frame) :=
  match m with
  | MValue => startValue t stack
  | MArrStart =>
      match t with TRBracket => closeTop t stack | _ => startValue t stack end
  | MObjStart =>
      match t with TRBrace => closeTop t stack | _ => takeKey t stack end
  | MObjKey => takeKey t stack
  | MObjColon => match t with TColon => Some (MValue, stack) | _ => None end
  | MAfter =>
      match t, stack with
      | TComma, FArr _ :: _ => Some (MValue, stack)
      | TComma, FObj _ None :: _ => Some (MObjKey, stack)
      | _, _ => closeTop t stack
      end
  | MDone _ => None
  end.

Fixpoint parseFrom (m : mode) (stack : list frame) (ts : list token)
    : option value :=
  match ts with
  | t :: ts' =>
      match parseStep m stack t with
      | Some (m', stack') => parseFrom m' stack' ts'
      | None => None
      end
  | [] => match m with MDone v => Some v | _ => None end
  end.

Definition parse (text : jsstring) : option value :=
  match lexFrom LIdle text with
  | Some ts => parseFrom MValue [] ts
  | None => None
  end.

End JSON.

(** ** The component *)
Module Postport.

Import Regex.

(** [currentScreen: 'home' | 'chat' | 'map' | 'planner'] *)
Inductive Screen : Type := Home | Chat | Map | Planner.

Definition Screen_eqb (a b : Screen) : bool :=
  match a, b with
  | Home, Home | Chat, Chat | Map, Map | Planner, Planner => true
  | _, _ => false
  end.

Inductive Role : Type := user | assistant.

(** [markdown] is optional in the source; [None] is the absent field. *)
Record ChatMessage : Type := Message {
  role : Role;
  content : jsstring;
  markdown : option bool
}.

(** The object literal built for each location. *)
Record Pin : Type := MkPin {
  lat : value;
  lng : value;
  label : value;
  icon : value;
  description : value
}.

(** A marker attached to a map instance. *)
Record Marker : Type := MkMarker {
  marker_lat : value;
  marker_lng : value;
  marker_label : value;
  marker_map : nat
}.

(** What the page does to the outside world, oldest first. *)
Inductive Effect : Type :=
| Fetch (userMessage : jsstring)           (* the POST to the chat endpoint *)
| ScriptAppended                           (* document.body.appendChild(script) *)
| LoaderCalled                             (* a call of loadGoogleMaps *)
| MapConstructed (id : nat) (element : option nat).  (* new gmaps.Map(mapElement, ...) *)

(** The variables of the script block, then the part of the browser that
    [loadGoogleMaps] reads and writes, then the effects so far.  The source
    variable [map] is [mapInstance] here. *)
Record State : Type := MkState {
  currentScreen : Screen;
  chatInput : jsstring;
  chatMessages : list ChatMessage;
  isLoading : bool;
  mapInstance : option nat;
  mapElement : option nat;
  mapPins : list Pin;
  mapMarkers : list Marker;
  mapInitialized : bool;
  googleMaps : bool;      (* window.google && window.google.maps *)
  scriptTag : bool;       (* document.querySelector('script[data-google-maps]') *)
  gmapsLoaded : bool;     (* window.gmapsLoaded *)
  scriptFailed : bool;    (* the script's error event has fired *)
  onloadWaiter : bool;    (* the promise settled by script.onload / onerror is pending *)
  eventWaiters : nat;     (* listeners of gmaps:loaded, one pending promise each *)
  nextId : nat;           (* fresh identities for DOM nodes and map instances *)
  effects : list Effect
}.

Definition initial : State :=
  MkState Home [] [] false None None [] [] false
          false false false false false 0 0 [].

Definition set_currentScreen (x : Screen) (st : State) : State :=
  let '(MkState _ a2 a3 a4 a5 a6 a7 a8 a9 b1 b2 b3 b4 b5 b6 b7 b8) := st in
  MkState x a2 a3 a4 a5 a6 a7 a8 a9 b1 b2 b3 b4 b5 b6 b7 b8.
Definition set_chatInput (x : jsstring) (st : State) : State :=
  let '(MkState a1 _ a3 a4 a5 a6 a7 a8 a9 b1 b2 b3 b4 b5 b6 b7 b8) := st in
  MkState a1 x a3 a4 a5 a6 a7 a8 a9 b1 b2 b3 b4 b5 b6 b7 b8.
Definition set_chatMessages (x : list ChatMessage) (st : State) : State :=
  let '(MkState a1 a2 _ a4 a5 a6 a7 a8 a9 b1 b2 b3 b4 b5 b6 b7 b8) := st in
  MkState a1 a2 x a4 a5 a6 a7 a8 a9 b1 b2 b3 b4 b5 b6 b7 b8.
Definition set_isLoading (x : bool) (st : State) : State :=
  let '(MkState a1 a2 a3 _ a5 a6 a7 a8 a9 b1 b2 b3 b4 b5 b6 b7 b8) := st in
  MkState a1 a2 a3 x a5 a6 a7 a8 a9 b1 b2 b3 b4 b5 b6 b7 b8.
Definition set_mapInstance (x : option nat) (st : State) : State :=
  let '(MkState a1 a2 a3 a4 _ a6 a7 a8 a9 b1 b2 b3 b4 b5 b6 b7 b8) := st in
  MkState a1 a2 a3 a4 x a6 a7 a8 a9 b1 b2 b3 b4 b5 b6 b7 b8.
Definition set_mapElement (x : option nat) (st : State) : State :=
  let '(MkState a1 a2 a3 a4 a5 _ a7 a8 a9 b1 b2 b3 b4 b5 b6 b7 b8) := st in
  MkState a1 a2 a3 a4 a5 x a7 a8 a9 b1 b2 b3 b4 b5 b6 b7 b8.
Definition set_mapPins (x : list Pin) (st : State) : State :=
  let '(MkState a1 a2 a3 a4 a5 a6 _ a8 a9 b1 b2 b3 b4 b5 b6 b7 b8) := st in
  MkState a1 a2 a3 a4 a5 a6 x a8 a9 b1 b2 b3 b4 b5 b6 b7 b8.
Definition set_mapMarkers (x : list Marker) (st : State) : State :=
  let '(MkState a1 a2 a3 a4 a5 a6 a7 _ a9 b1 b2 b3 b4 b5 b6 b7 b8) := st in
  MkState a1 a2 a3 a4 a5 a6 a7 x a9 b1 b2 b3 b4 b5 b6 b7 b8.
Definition set_mapInitialized (x : bool) (st : State) : State :=
  let '(MkState a1 a2 a3 a4 a5 a6 a7 a8 _ b1 b2 b3 b4 b5 b6 b7 b8) := st in
  MkState a1 a2 a3 a4 a5 a6 a7 a8 x b1 b2 b3 b4 b5 b6 b7 b8.
Definition set_googleMaps (x : bool) (st : State) : State :=
  let '(MkState a1 a2 a3 a4 a5 a6 a7 a8 a9 _ b2 b3 b4 b5 b6 b7 b8) := st in
  MkState a1 a2 a3 a4 a5 a6 a7 a8 a9 x b2 b3 b4 b5 b6 b7 b8.
Definition set_scriptTag (x : bool) (st : State) : State :=
  let '(MkState a1 a2 a3 a4 a5 a6 a7 a8 a9 b1 _ b3 b4 b5 b6 b7 b8) := st in
  MkState a1 a2 a3 a4 a5 a6 a7 a8 a9 b1 x b3 b4 b5 b6 b7 b8.
Definition set_gmapsLoaded (x : bool) (st : State) : State :=
  let '(MkState a1 a2 a3 a4 a5 a6 a7 a8 a9 b1 b2 _ b4 b5 b6 b7 b8) := st in
  MkState a1 a2 a3 a4 a5 a6 a7 a8 a9 b1 b2 x b4 b5 b6 b7 b8.
Definition set_scriptFailed (x : bool) (st : State) : State :=
  let '(MkState a1 a2 a3 a4 a5 a6 a7 a8 a9 b1 b2 b3 _ b5 b6 b7 b8) := st in
  MkState a1 a2 a3 a4 a5 a6 a7 a8 a9 b1 b2 b3 x b5 b6 b7 b8.
Definition set_onloadWaiter (x : bool) (st : State) : State :=
  let '(MkState a1 a2 a3 a4 a5 a6 a7 a8 a9 b1 b2 b3 b4 _ b6 b7 b8) := st in
  MkState a1 a2 a3 a4 a5 a6 a7 a8 a9 b1 b2 b3 b4 x b6 b7 b8.
Definition set_eventWaiters (x : nat) (st : State) : State :=
  let '(MkState a1 a2 a3 a4 a5 a6 a7 a8 a9 b1 b2 b3 b4 b5 _ b7 b8) := st in
  MkState a1 a2 a3 a4 a5 a6 a7 a8 a9 b1 b2 b3 b4 b5 x b7 b8.
Definition set_nextId (x : nat) (st : State) : State :=
  let '(MkState a1 a2 a3 a4 a5 a6 a7 a8 a9 b1 b2 b3 b4 b5 b6 _ b8) := st in
  MkState a1 a2 a3 a4 a5 a6 a7 a8 a9 b1 b2 b3 b4 b5 b6 x b8.
Definition emit (e : Effect) (st : State) : State :=
  let '(MkState a1 a2 a3 a4 a5 a6 a7 a8 a9 b1 b2 b3 b4 b5 b6 b7 b8) := st in
  MkState a1 a2 a3 a4 a5 a6 a7 a8 a9 b1 b2 b3 b4 b5 b6 b7 (b8 ++ [e]).

(** *** The chat pipeline: [sendMessage] *)

(** [/```json[\s\r\n]*([\s\S]*?)```/] *)
Definition fenceOpen : jsstring := lit "```json".
Definition fenceClose : jsstring := lit "```".

Definition spaceClass (c : N) : bool :=
  (isWhiteSpace c || (c =? 13) || (c =? 10))%N.
Definition anyClass (c : N) : bool :=
  isWhiteSpace c || negb (isWhiteSpace c).

Definition codeBlockRegex : list atom :=
  chars fenceOpen
  ++ [Star true spaceClass; GroupOpen; Star false anyClass; GroupClose]
  ++ chars fenceClose.

(** Lines 38 to 45: [markdownPart] and [jsonText] ([None] is [null]). *)
Definition splitResponse (text : jsstring) : jsstring * option jsstring :=
  match exec codeBlockRegex text with
  | Some m => (trim (removeMatch text m), Some (group1 text m))
  | None => (text, None)
  end.

(** [loc.a ?? loc.b]; the right operand is read only when the left one is
    null or undefined. *)
Definition getEither (loc : value) (a b : jsstring) : option value :=
  match get loc a with
  | Some x => if nullish x then get loc b else Some x
  | None => None
  end.

(** The callback of [locations.map]; [None] is the TypeError thrown when
    [loc] is null. *)
Definition toPin (loc : value) : option Pin :=
  match getEither loc (lit "lat") (lit "latitude"),
        getEither loc (lit "lng") (lit "longitude"),
        getEither loc (lit "label") (lit "name"),
        get loc (lit "icon"),
        get loc (lit "description") with
  | Some a, Some b, Some c, Some d, Some e => Some (MkPin a b c d e)
  | _, _, _, _, _ => None
  end.

(** [locations.map(...)]: the first callback that throws ends the loop. *)
Fixpoint mapPinsOf (locations : list value) : option (list Pin) :=
  match locations with
  | [] => Some []
  | loc :: rest =>
      match toPin loc with
      | Some p =>
          match mapPinsOf rest with
          | Some ps => Some (p :: ps)
          | None => None
          end
      | None => None
      end
  end.

(** [locations[0]?.lat && locations[0]?.lng ||
     locations[0]?.latitude && locations[0]?.longitude] *)
Definition firstHasCoordinates (locations : list value) : bool :=
  let first := nth 0 locations VUndefined in
  truthy
    (js_or (js_and (get_opt first (lit "lat")) (get_opt first (lit "lng")))
           (js_and (get_opt first (lit "latitude"))
                   (get_opt first (lit "longitude")))).

Section WithJSON.

(** [JSON.parse], with [None] for the SyntaxError it throws. *)
Variable JSON_parse : jsstring -> option value.

(** Lines 49 to 64: the pins handed to [setMapPins], or [None] when
    [setMapPins] is not called (falsy [jsonText], failed guard, or an
    exception swallowed by the empty [catch]). *)
Definition pinsOfJson (jsonText : option jsstring) : option (list Pin) :=
  match jsonText with
  | None | Some [] => None
  | Some t =>
      match JSON_parse t with
      | Some (VArr locations) =>
          if firstHasCoordinates locations then mapPinsOf locations else None
      | _ => None
      end
  end.

Definition setMapPins (newPins : list Pin) (st : State) : State :=
  set_mapPins newPins st.

(** Lines 38 to 64, once [text] is known to be a string. *)
Definition handleText (text : jsstring) (st : State) : State :=
  let (markdownPart, jsonText) := splitResponse text in
  let st1 :=
    set_chatMessages
      (chatMessages st ++ [Message assistant markdownPart (Some true)]) st in
  match pinsOfJson jsonText with
  | Some pins => setMapPins pins st1
  | None => st1
  end.

(** How [await fetch(...)] and [await res.json()] end. *)
Inductive FetchOutcome : Type :=
| FetchRejected               (* fetch rejects: no network, CORS, ... *)
| BodyNotJson                 (* res.json() rejects *)
| Body (data : value).

(** [data.candidates?.[0]?.content?.parts?.[0]?.text || '[No response]'];
    [None] when [data] is null. *)
Definition responseText (data : value) : option value :=
  match get data (lit "candidates") with
  | Some candidates =>
      let t :=
        get_opt (index0_opt (get_opt (get_opt (index0_opt candidates)
                                              (lit "content"))
                                     (lit "parts")))
                (lit "text") in
      Some (js_or t (VStr (lit "[No response]")))
  | None => None
  end.

Definition errorMessage : ChatMessage :=
  Message assistant (lit "[Error contacting Gemini API]") None.

(** Lines 18 to 34, up to the first [await]: the new state and the request
    that was started, if any. *)
Definition sendMessage_start (st : State) : State * option jsstring :=
  match trim (chatInput st) with
  | [] => (st, None)
  | _ :: _ =>
      let userMessage := chatInput st in
      let st1 :=
        set_chatMessages
          (chatMessages st ++ [Message user (chatInput st) None]) st in
      let st2 := set_isLoading true (set_chatInput [] st1) in
      (emit (Fetch userMessage) st2, Some userMessage)
  end.

(** Lines 35 to 68: the rest of [sendMessage] once the request has ended.
    Everything that can throw before line 47 (a rejected [await], [data]
    being null, [text] not being a string and so having no [match]) lands in
    the outer [catch]; after line 47 nothing escapes the inner [catch]. *)
Definition sendMessage_resume (outcome : FetchOutcome) (st : State) : State :=
  let caught :=
    set_chatMessages (chatMessages st ++ [errorMessage]) st in
  let st1 :=
    match outcome with
    | Body data =>
        match responseText data with
        | Some (VStr text) => handleText text st
        | _ => caught
        end
    | _ => caught
    end in
  set_isLoading false st1.

End WithJSON.

(** *** The map pane *)

(** How the promise returned by [loadGoogleMaps] stands when the call
    returns. *)
Inductive Loading : Type :=
| Resolved      (* resolve(window.google.maps) was called *)
| Pending       (* settled later, by the script's load or error event *)
| Rejected.     (* window.gmapsLoaded is set but google.maps is missing *)

(** Lines 78 to 102. *)
Definition loadGoogleMaps (st : State) : State * Loading :=
  let st := emit LoaderCalled st in
  if googleMaps st then (st, Resolved)
  else if scriptTag st then
    if gmapsLoaded st then (st, Rejected)
    else (set_eventWaiters (S (eventWaiters st)) st, Pending)
  else
    (emit ScriptAppended (set_onloadWaiter true (set_scriptTag true st)),
     Pending).

(** Lines 104 to 118.  Detached markers are dropped with the old array. *)
Definition updateMapPins (st : State) : State :=
  match mapInstance st with
  | None => st
  | Some m =>
      set_mapMarkers
        (List.map
           (fun pin =>
              MkMarker (lat pin) (lng pin)
                       (js_or (label pin) VUndefined) m)
           (mapPins st))
        st
  end.

(** Lines 130 to 135: what follows [await loadGoogleMaps()] in the callback
    of [tick().then].  The constructor call is recorded with the element it
    is given; what the vendor's constructor does with a null element is not
    modelled. *)
Definition createMap (st : State) : State :=
  let id := nextId st in
  let st1 :=
    emit (MapConstructed id (mapElement st))
         (set_mapInstance (Some id) (set_nextId (S id) st)) in
  set_mapInitialized true (updateMapPins st1).

(** Lines 127 to 129: the callback of [tick().then] up to its [await].
    [None] when the guard of line 128 fails, else how the loader's promise
    stands. *)
Definition initMap_await (st : State) : State * option Loading :=
  match mapElement st with
  | Some _ =>
      if mapInitialized st then (st, None)
      else let (st1, p) := loadGoogleMaps st in (st1, Some p)
  | None => (st, None)
  end.

(** The callback after its [await], when the promise is already resolved;
    a pending one is resumed by the script's load event, a rejected one
    ends the callback. *)
Definition initMap_resume (p : option Loading) (st : State) : State :=
  match p with
  | Some Resolved => createMap st
  | _ => st
  end.

(** The three reactive statements, lines 124, 126 and 140.  A statement
    runs again when a variable it mentions has been assigned: the first
    mentions [map] and [currentScreen], the third [currentScreen], and
    the second [currentScreen], [mapInitialized] and, at line 128,
    [mapElement].  So the second one runs when the screen changes and
    once more when [bind:this] assigns the new element; it answers
    whether its callback is handed to [tick().then].  After a map has
    been constructed the first one runs again, which rebuilds the same
    markers, and the second one finds [mapInitialized] set. *)
Definition reactiveMarkers (st : State) : State :=
  match mapInstance st with
  | Some _ => if Screen_eqb (currentScreen st) Map then updateMapPins st else st
  | None => st
  end.

Definition reactiveInit (st : State) : bool :=
  Screen_eqb (currentScreen st) Map && negb (mapInitialized st).

Definition reactiveReset (st : State) : State :=
  if Screen_eqb (currentScreen st) Map then st
  else set_mapInitialized false st.

(** A click on a navigation button (lines 146 to 149): the assignment,
    the reactive statements, the DOM update (the map [div] of line 194
    exists exactly on the map screen, and [bind:this] follows it), which
    makes the map-init statement run a second time, then the [tick]
    callbacks, each up to its [await], then what follows the [await]s
    that are already resolved.  Assigning the value it already has does
    not invalidate [currentScreen]. *)
Definition navigate (s : Screen) (st : State) : State :=
  if Screen_eqb s (currentScreen st) then st
  else
    let st1 := set_currentScreen s st in
    let st2 := reactiveMarkers st1 in
    let first := reactiveInit st2 in
    let st3 := reactiveReset st2 in
    let st4 :=
      if Screen_eqb s Map
      then set_nextId (S (nextId st3)) (set_mapElement (Some (nextId st3)) st3)
      else set_mapElement None st3 in
    let second := reactiveInit st4 in
    let (st5, p1) := if first then initMap_await st4 else (st4, None) in
    let (st6, p2) := if second then initMap_await st5 else (st5, None) in
    initMap_resume p2 (initMap_resume p1 st6).

(** The script's load event, lines 94 to 98: the vendor script has run and
    defined [window.google.maps]; the listeners of [gmaps:loaded] resolve
    their promises, then [onload] resolves its own, and each resumed
    callback goes on to create a map. *)
Definition scriptLoaded (st : State) : State :=
  if scriptTag st && negb (gmapsLoaded st) && negb (scriptFailed st) then
    let st1 := set_gmapsLoaded true (set_googleMaps true st) in
    let resumed := eventWaiters st1 + (if onloadWaiter st1 then 1 else 0) in
    let st2 := set_onloadWaiter false (set_eventWaiters 0 st1) in
    Nat.iter resumed createMap st2
  else st.

(** The script's error event, line 99: [reject]; nobody handles it. *)
Definition scriptError (st : State) : State :=
  if scriptTag st && negb (gmapsLoaded st) && negb (scriptFailed st) then
    set_onloadWaiter false (set_scriptFailed true st)
  else st.

(** *** The page as a whole *)

Inductive Event : Type :=
| Click (s : Screen)
| Input (s : jsstring)              (* typing: bind:value={chatInput} *)
| Submit                            (* the form's submit: sendMessage() *)
| Reply (outcome : FetchOutcome)    (* a pending request ends *)
| ScriptLoad
| ScriptError.

Section Page.

Variable JSON_parse : jsstring -> option value.

Definition step (st : State) (e : Event) : State :=
  match e with
  | Click s => navigate s st
  | Input s => set_chatInput s st
  | Submit => fst (sendMessage_start st)
  | Reply outcome => sendMessage_resume JSON_parse outcome st
  | ScriptLoad => scriptLoaded st
  | ScriptError => scriptError st
  end.

Definition run (st : State) (events : list Event) : State :=
  fold_left step events st.

End Page.

(** Counting effects. *)
Definition isScriptAppended (e : Effect) : bool :=
  match e with ScriptAppended => true | _ => false end.
Definition isMapConstructed (e : Effect) : bool :=
  match e with MapConstructed _ _ => true | _ => false end.
Definition isLoaderCalled (e : Effect) : bool :=
  match e with LoaderCalled => true | _ => false end.
Definition isFetch (e : Effect) : bool :=
  match e with Fetch _ => true | _ => false end.

Definition count (p : Effect -> bool) (st : State) : nat :=
  List.length (filter p (effects st)).

(** *** Where the fenced block is

    Stated on the text itself, without the regular expression. *)

(** [text] contains a fenced JSON block: an opening fence and, somewhere
    after it, a closing fence. *)
Definition ContainsBlock (text : jsstring) : Prop :=
  exists pre mid post, text = pre ++ fenceOpen ++ mid ++ fenceClose ++ post.

(** The first fenced JSON block of [text]: [pre] is what precedes the first
    opening fence, [ws] the white space that follows the tag, [body] the
    content up to the first closing fence, [post] the rest. *)
Definition FirstBlock (text pre ws body post : jsstring) : Prop :=
  text = pre ++ fenceOpen ++ ws ++ body ++ fenceClose ++ post
  /\ firstAt fenceOpen text (List.length pre) = true
  /\ forallb isWhiteSpace ws = true
  /\ startsWithSpace body = false
  /\ firstAt fenceClose (body ++ fenceClose ++ post) (List.length body) = true.

(** *** When a payload gives no pins, and the two spellings of a record *)

(** No latitude-like field: neither [lat] nor [latitude] can be read. *)
Definition lacksLatitude (v : value) : Prop :=
  get_opt v (lit "lat") = VUndefined
  /\ get_opt v (lit "latitude") = VUndefined.

Definition lacksLongitude (v : value) : Prop :=
  get_opt v (lit "lng") = VUndefined
  /\ get_opt v (lit "longitude") = VUndefined.

(** The result of parsing a payload that is to be discarded: the parse
    failed, or gave something that is not an array, or gave an array whose
    first element lacks a latitude-like or a longitude-like field. *)
Inductive Discarded : option value -> Prop :=
| NoParse : Discarded None
| NotArray (v : value) : isArray v = false -> Discarded (Some v)
| NoCoordinates (locations : list value) :
    lacksLatitude (nth 0 locations VUndefined)
    \/ lacksLongitude (nth 0 locations VUndefined) ->
    Discarded (Some (VArr locations)).

(** A record spelt with [latitude], [longitude] and [name] only. *)
Definition LongForm (fields : list (jsstring * value)) : Prop :=
  lookup (lit "lat") fields = VUndefined
  /\ lookup (lit "lng") fields = VUndefined
  /\ lookup (lit "label") fields = VUndefined.

(** A record spelt with [lat], [lng] and [label] only. *)
Definition ShortForm (fields : list (jsstring * value)) : Prop :=
  lookup (lit "latitude") fields = VUndefined
  /\ lookup (lit "longitude") fields = VUndefined
  /\ lookup (lit "name") fields = VUndefined.

(** The two records carry the same values under corresponding keys. *)
Definition SameValues (long short : list (jsstring * value)) : Prop :=
  lookup (lit "latitude") long = lookup (lit "lat") short
  /\ lookup (lit "longitude") long = lookup (lit "lng") short
  /\ lookup (lit "name") long = lookup (lit "label") short
  /\ lookup (lit "icon") long = lookup (lit "icon") short
  /\ lookup (lit "description") long = lookup (lit "description") short.

(** *** The script tag and the requests for it *)

(** The script has been appended exactly when its tag is in the document,
    and [window.gmapsLoaded] is only set once [window.google.maps] is. *)
Definition ScriptOnce (st : State) : Prop :=
  count isScriptAppended st = (if scriptTag st then 1 else 0)
  /\ (gmapsLoaded st = true -> googleMaps st = true).

(** [st'] agrees with [st] on what [ScriptOnce] looks at. *)
Definition SameScript (st st' : State) : Prop :=
  scriptTag st' = scriptTag st
  /\ gmapsLoaded st' = gmapsLoaded st
  /\ googleMaps st' = googleMaps st
  /\ count isScriptAppended st' = count isScriptAppended st.

(** The payload and the pin of the example of the specification. *)
Definition examplePayload : jsstring := litq "[{'lat':1,'lng':2,'label':'A'}]".

Definition examplePin : Pin :=
  MkPin (VNum (Number false 1 0)) (VNum (Number false 2 0))
        (VStr (lit "A")) VUndefined VUndefined.

(** *** Frames and invariants of the page *)

(** The marker built for [pin] on map instance [m] (lines 111 to 115). *)
Definition markerOn (m : nat) (pin : Pin) : Marker :=
  MkMarker (lat pin) (lng pin) (js_or (label pin) VUndefined) m.

(** [st'] has the chat side of [st]: input, transcript, loading flag, pin
    list, and the requests sent so far. *)
Definition SameChat (st st' : State) : Prop :=
  chatInput st' = chatInput st
  /\ chatMessages st' = chatMessages st
  /\ isLoading st' = isLoading st
  /\ mapPins st' = mapPins st
  /\ filter isFetch (effects st') = filter isFetch (effects st).

Definition isPageEffect (e : Effect) : bool := negb (isFetch e).

(** [st'] has the map side of [st]: screen, map instance, element,
    markers, the loader's flags and waiters, and every effect that is not
    a chat request. *)
Definition SameMap (st st' : State) : Prop :=
  currentScreen st' = currentScreen st
  /\ mapInstance st' = mapInstance st
  /\ mapElement st' = mapElement st
  /\ mapMarkers st' = mapMarkers st
  /\ mapInitialized st' = mapInitialized st
  /\ googleMaps st' = googleMaps st
  /\ scriptTag st' = scriptTag st
  /\ gmapsLoaded st' = gmapsLoaded st
  /\ scriptFailed st' = scriptFailed st
  /\ onloadWaiter st' = onloadWaiter st
  /\ eventWaiters st' = eventWaiters st
  /\ nextId st' = nextId st
  /\ filter isPageEffect (effects st') = filter isPageEffect (effects st).

(** The script's error event has fired: the tag is in the document and
    [google.maps] never arrived. *)
Definition ScriptDead (st : State) : Prop :=
  scriptFailed st = true /\ scriptTag st = true
  /\ googleMaps st = false /\ gmapsLoaded st = false.

(** A message that the template renders through [marked] and [@html]
    (line 166) is an assistant message. *)
Definition HtmlOnlyAssistant (m : ChatMessage) : Prop :=
  markdown m <> None -> role m = assistant.

(** The map [div] is bound exactly on the map screen. *)
Definition ElementOnMapScreen (st : State) : Prop :=
  mapElement st <> None <-> currentScreen st = Map.

End Postport.

(** * Properties *)

(** ** Strings *)
Module StringFacts.

Lemma trimStart_blank (s : jsstring) :
  forallb isWhiteSpace s = true -> trimStart s = [].
Proof.
  induction s as [|c s IH]; simpl; [reflexivity|].
  intros H. apply andb_true_iff in H as [Hc Hs].
  rewrite Hc. exact (IH Hs).
Qed.

Lemma trim_blank (s : jsstring) :
  forallb isWhiteSpace s = true -> trim s = [].
Proof.
  intros H. unfold trim, trimEnd. rewrite (trimStart_blank s H). reflexivity.
Qed.

Lemma startsWith_app (p s : jsstring) : startsWith p (p ++ s) = true.
Proof.
  induction p as [|c p IH]; simpl; [reflexivity|].
  rewrite N.eqb_refl. exact IH.
Qed.

Lemma startsWith_split (p s : jsstring) :
  startsWith p s = true -> s = p ++ skipn (List.length p) s.
Proof.
  revert s. induction p as [|c p IH]; intros [|x s]; simpl;
    try reflexivity; try discriminate.
  intros H. apply andb_true_iff in H as [Hx Hs].
  apply N.eqb_eq in Hx. subst x. f_equal. exact (IH s Hs).
Qed.

Lemma skipn_app_length {A : Type} (a b : list A) :
  skipn (List.length a) (a ++ b) = b.
Proof. induction a; simpl; auto. Qed.

Lemma firstn_app_length {A : Type} (a b : list A) :
  firstn (List.length a) (a ++ b) = a.
Proof. induction a; simpl; [destruct b; reflexivity | f_equal; auto]. Qed.

Lemma skipn_add {A : Type} (n m : nat) (l : list A) :
  skipn (n + m) l = skipn m (skipn n l).
Proof.
  revert l. induction n as [|n IH]; intros l; simpl; [reflexivity|].
  destruct l; simpl; [now rewrite skipn_nil | apply IH].
Qed.

Lemma firstAt_before (p s : jsstring) (n j : nat) :
  firstAt p s n = true -> j < n -> startsWith p (skipn j s) = false.
Proof.
  unfold firstAt. intros H Hj. apply andb_true_iff in H as [H _].
  rewrite forallb_forall in H.
  specialize (H j). rewrite in_seq in H.
  apply negb_true_iff. apply H. lia.
Qed.

Lemma firstAt_here (p s : jsstring) (n : nat) :
  firstAt p s n = true -> startsWith p (skipn n s) = true.
Proof. unfold firstAt. intros H. now apply andb_true_iff in H. Qed.

Lemma trimStart_head (s : jsstring) : startsWithSpace (trimStart s) = false.
Proof.
  induction s as [|c s IH]; [reflexivity|]. cbn [trimStart].
  destruct (isWhiteSpace c) eqn:E; [exact IH|]. cbn [startsWithSpace]. exact E.
Qed.

Lemma trimStart_suffix (s : jsstring) :
  exists w, s = w ++ trimStart s /\ forallb isWhiteSpace w = true.
Proof.
  induction s as [|c s (w & IH & Hw)]; [now exists []|]. cbn [trimStart].
  destruct (isWhiteSpace c) eqn:E.
  - exists (c :: w). cbn [app forallb]. rewrite <- IH, E, Hw. auto.
  - now exists [].
Qed.

Lemma forallb_rev_true {A : Type} (f : A -> bool) (l : list A) :
  forallb f l = true -> forallb f (rev l) = true.
Proof.
  rewrite !forallb_forall. intros H x Hx. apply H. now apply in_rev.
Qed.

Lemma trimEnd_prefix (s : jsstring) :
  exists w, s = trimEnd s ++ w /\ forallb isWhiteSpace w = true.
Proof.
  unfold trimEnd. destruct (trimStart_suffix (rev s)) as (w & H & Hw).
  exists (rev w). split; [|now apply forallb_rev_true].
  rewrite <- rev_app_distr, <- H. now rewrite rev_involutive.
Qed.

Lemma trim_ends (s : jsstring) :
  startsWithSpace (trim s) = false /\ startsWithSpace (rev (trim s)) = false.
Proof.
  unfold trim. split.
  - destruct (trimEnd_prefix (trimStart s)) as (w & H & _).
    pose proof (trimStart_head s) as Hh. rewrite H in Hh.
    destruct (trimEnd (trimStart s)); [reflexivity | exact Hh].
  - unfold trimEnd. rewrite rev_involutive. apply trimStart_head.
Qed.

(** [trim] does trim. *)
Lemma trim_Trimmed (s : jsstring) : Trimmed s (trim s).
Proof.
  destruct (trimStart_suffix s) as (lead & Hs & Hlead).
  destruct (trimEnd_prefix (trimStart s)) as (trail & Ht & Htrail).
  destruct (trim_ends s) as [H1 H2].
  exists lead, trail. fold (trim s) in Ht. rewrite <- Ht. auto.
Qed.

End StringFacts.

(** ** The matcher *)
Module RegexFacts.

Import Regex StringFacts.

Lemma matchHere_chars (p : jsstring) (re : list atom) (gs ge : nat)
    (s : jsstring) (pos : nat) :
  matchHere (chars p ++ re) gs ge s pos =
  if startsWith p s
  then matchHere re gs ge (skipn (List.length p) s) (pos + List.length p)
  else None.
Proof.
  revert s pos. induction p as [|c p IH]; intros s pos; simpl.
  - now rewrite Nat.add_0_r.
  - destruct s as [|x s]; [reflexivity|].
    destruct (x =? c)%N; simpl; [|reflexivity].
    rewrite IH. now rewrite Nat.add_succ_comm.
Qed.

(** A star ends somewhere in the input, whatever its class and priority. *)
Lemma star_sound (g : bool) (cls : N -> bool)
    (k : jsstring -> nat -> option result) (s : jsstring) (pos : nat)
    (r : result) :
  star g cls k s pos = Some r ->
  exists j, j <= List.length s /\ k (skipn j s) (pos + j) = Some r.
Proof.
  revert pos. induction s as [|x s IH]; intros pos; simpl.
  - intros H. exists 0. now rewrite Nat.add_0_r.
  - assert (Hhere : k (x :: s) pos = Some r ->
                    exists j, j <= S (List.length s)
                              /\ k (skipn j (x :: s)) (pos + j) = Some r).
    { intros H. exists 0. split; [lia|]. now rewrite Nat.add_0_r. }
    assert (Hnext : star g cls k s (S pos) = Some r ->
                    exists j, j <= S (List.length s)
                              /\ k (skipn j (x :: s)) (pos + j) = Some r).
    { intros H. destruct (IH _ H) as (j & Hj & Hk).
      exists (S j). split; [lia|]. simpl. now rewrite <- Nat.add_succ_comm. }
    destruct (cls x); [|exact Hhere].
    destruct g; unfold orelse.
    + destruct (star true cls k s (S pos)) eqn:E; [|exact Hhere].
      intros H. apply Hnext. exact H.
    + destruct (k (x :: s) pos) eqn:E; [intros H; apply Hhere; exact H|].
      exact Hnext.
Qed.

(** A lazy star over every character stops at the first offset where the
    rest of the pattern matches. *)
Lemma star_lazy_first (cls : N -> bool)
    (k : jsstring -> nat -> option result) (n : nat) :
  forall (s : jsstring) (pos : nat) (r : result),
    (forall c, cls c = true) ->
    n <= List.length s ->
    (forall j, j < n -> k (skipn j s) (pos + j) = None) ->
    k (skipn n s) (pos + n) = Some r ->
    star false cls k s pos = Some r.
Proof.
  induction n as [|n IH]; intros s pos r Hall Hlen Hnone Hhit.
  - simpl in Hhit. rewrite Nat.add_0_r in Hhit.
    destruct s as [|x s]; simpl; [exact Hhit|].
    rewrite Hall. unfold orelse. now rewrite Hhit.
  - destruct s as [|x s]; simpl in Hlen; [lia|].
    simpl. rewrite Hall.
    pose proof (Hnone 0 ltac:(lia)) as H0.
    simpl in H0. rewrite Nat.add_0_r in H0. rewrite H0. simpl.
    apply IH; [exact Hall | lia | |].
    + intros j Hj. specialize (Hnone (S j) ltac:(lia)).
      simpl in Hnone. now rewrite Nat.add_succ_comm.
    + simpl in Hhit. now rewrite Nat.add_succ_comm.
Qed.

(** A greedy star followed by a character outside its class takes the
    whole run, if the rest of the pattern then matches. *)
Lemma star_greedy_run (cls : N -> bool)
    (k : jsstring -> nat -> option result) (ws rest : jsstring) :
  forall (pos : nat) (r : result),
    forallb cls ws = true ->
    match rest with c :: _ => cls c = false | [] => True end ->
    k rest (pos + List.length ws) = Some r ->
    star true cls k (ws ++ rest) pos = Some r.
Proof.
  induction ws as [|c ws IH]; intros pos r Hws Hrest Hk; simpl in *.
  - rewrite Nat.add_0_r in Hk.
    destruct rest as [|x rest]; simpl; [exact Hk|].
    now rewrite Hrest.
  - apply andb_true_iff in Hws as [Hc Hws]. rewrite Hc.
    rewrite (IH (S pos) r Hws Hrest); [reflexivity|].
    now rewrite Nat.add_succ_comm.
Qed.

Lemma search_skip (re : list atom) (n : nat) :
  forall (s : jsstring) (pos : nat),
    n <= List.length s ->
    (forall j, j < n ->
       matchHere re (pos + j) (pos + j) (skipn j s) (pos + j) = None) ->
    search re s pos = search re (skipn n s) (pos + n).
Proof.
  induction n as [|n IH]; intros s pos Hlen Hnone.
  - simpl. now rewrite Nat.add_0_r.
  - destruct s as [|x s]; simpl in Hlen; [lia|].
    pose proof (Hnone 0 ltac:(lia)) as H0.
    simpl in H0. rewrite Nat.add_0_r in H0.
    cbn [search skipn]. rewrite H0.
    rewrite <- Nat.add_succ_comm. apply IH; [lia|].
    intros j Hj. specialize (Hnone (S j) ltac:(lia)).
    simpl in Hnone. now rewrite Nat.add_succ_comm.
Qed.

Lemma search_sound (re : list atom) (s : jsstring) :
  forall (pos i : nat) (r : result),
    search re s pos = Some (i, r) ->
    exists j, j <= List.length s /\ i = pos + j
              /\ matchHere re i i (skipn j s) i = Some r.
Proof.
  induction s as [|x s IH]; intros pos i r; simpl.
  - destruct (matchHere re pos pos [] pos) eqn:E; [|discriminate].
    intros H. injection H as <- <-. exists 0.
    rewrite Nat.add_0_r. auto.
  - destruct (matchHere re pos pos (x :: s) pos) eqn:E.
    + intros H. injection H as <- <-. exists 0.
      rewrite Nat.add_0_r. split; [lia|]. auto.
    + intros H. destruct (IH _ _ _ H) as (j & Hj & -> & Hm).
      exists (S j). rewrite <- Nat.add_succ_comm.
      split; [lia|]. split; [reflexivity|]. exact Hm.
Qed.

End RegexFacts.

(** ** The response splitter *)
Module SplitterFacts.

Import Regex StringFacts RegexFacts Postport.

Lemma spaceClass_eq (c : N) : spaceClass c = isWhiteSpace c.
Proof.
  unfold spaceClass.
  destruct (N.eqb_spec c 13) as [->|_]; [reflexivity|].
  destruct (N.eqb_spec c 10) as [->|_]; [reflexivity|].
  now rewrite !orb_false_r.
Qed.

Lemma anyClass_true (c : N) : anyClass c = true.
Proof. unfold anyClass. apply orb_negb_r. Qed.

Lemma forallb_spaceClass (ws : jsstring) :
  forallb isWhiteSpace ws = true -> forallb spaceClass ws = true.
Proof.
  induction ws as [|c ws IH]; simpl; [reflexivity|].
  intros H. apply andb_true_iff in H as [Hc Hws].
  now rewrite spaceClass_eq, Hc, IH.
Qed.

Lemma skipn_app_plus {A : Type} (a b : list A) (n : nat) :
  skipn (List.length a + n) (a ++ b) = skipn n b.
Proof. induction a; simpl; auto. Qed.

Lemma search_here (re : list atom) (s : jsstring) (pos : nat) (r : result) :
  matchHere re pos pos s pos = Some r -> search re s pos = Some (pos, r).
Proof. intros H. destruct s; simpl; now rewrite H. Qed.

(** The last part of the pattern: the closing fence. *)
Lemma matchHere_close (gs ge : nat) (s : jsstring) (pos : nat) :
  matchHere (chars fenceClose) gs ge s pos =
  if startsWith fenceClose s
  then Some (Result (pos + List.length fenceClose) gs ge)
  else None.
Proof.
  rewrite <- (app_nil_r (chars fenceClose)).
  rewrite matchHere_chars. reflexivity.
Qed.

(** What the pattern matches at an opening fence. *)
Lemma matchHere_block (p : nat) (ws body post : jsstring) :
  forallb isWhiteSpace ws = true ->
  startsWithSpace body = false ->
  firstAt fenceClose (body ++ fenceClose ++ post) (List.length body) = true ->
  matchHere codeBlockRegex p p
            (fenceOpen ++ ws ++ body ++ fenceClose ++ post) p =
  Some (Result
          (p + List.length fenceOpen + List.length ws + List.length body
           + List.length fenceClose)
          (p + List.length fenceOpen + List.length ws)
          (p + List.length fenceOpen + List.length ws + List.length body)).
Proof.
  intros Hws Hbody Hclose.
  unfold codeBlockRegex. rewrite matchHere_chars, startsWith_app.
  rewrite skipn_app_length. cbn [app matchHere].
  apply star_greedy_run.
  - now apply forallb_spaceClass.
  - destruct body as [|c body]; [reflexivity|].
    simpl in Hbody |- *. now rewrite spaceClass_eq.
  - apply star_lazy_first with (n := List.length body).
    + exact anyClass_true.
    + rewrite length_app. lia.
    + intros j Hj. rewrite matchHere_close.
      now rewrite (firstAt_before _ _ _ _ Hclose Hj).
    + rewrite matchHere_close.
      now rewrite (firstAt_here _ _ _ Hclose).
Qed.

Lemma exec_block (text pre ws body post : jsstring) :
  FirstBlock text pre ws body post ->
  exec codeBlockRegex text =
  Some (List.length pre,
        Result
          (List.length pre + List.length fenceOpen + List.length ws
           + List.length body + List.length fenceClose)
          (List.length pre + List.length fenceOpen + List.length ws)
          (List.length pre + List.length fenceOpen + List.length ws
           + List.length body)).
Proof.
  intros (Htext & Hopen & Hws & Hbody & Hclose).
  unfold exec.
  rewrite (search_skip codeBlockRegex (List.length pre) text 0).
  - rewrite Htext at 1. rewrite skipn_app_length. simpl (0 + _).
    apply search_here. now apply matchHere_block.
  - rewrite Htext, length_app. lia.
  - intros j Hj. simpl (0 + j). unfold codeBlockRegex.
    rewrite matchHere_chars.
    now rewrite (firstAt_before _ _ _ _ Hopen Hj).
Qed.

(** The splitter on a text whose first fenced block is known. *)
Lemma splitResponse_block (text pre ws body post : jsstring) :
  FirstBlock text pre ws body post ->
  splitResponse text = (trim (pre ++ post), Some body).
Proof.
  intros HB. unfold splitResponse. rewrite (exec_block _ _ _ _ _ HB).
  destruct HB as (Htext & _). subst text.
  unfold removeMatch, group1, substring. cbn [fst snd res_end cap_start cap_end].
  f_equal.
  - f_equal. rewrite firstn_app_length. f_equal.
    rewrite <- !Nat.add_assoc.
    rewrite skipn_app_plus, skipn_app_plus, skipn_app_plus, skipn_app_plus.
    now rewrite <- (Nat.add_0_r (List.length fenceClose)), skipn_app_plus.
  - f_equal.
    replace (List.length pre + List.length fenceOpen + List.length ws
             + List.length body
             - (List.length pre + List.length fenceOpen + List.length ws))
      with (List.length body) by lia.
    rewrite <- !Nat.add_assoc.
    rewrite skipn_app_plus, skipn_app_plus.
    rewrite <- (Nat.add_0_r (List.length ws)), skipn_app_plus.
    simpl skipn. apply firstn_app_length.
Qed.

(** Whatever the pattern matches is an opening fence with a closing fence
    after it. *)
Lemma exec_contains (text : jsstring) (m : nat * result) :
  exec codeBlockRegex text = Some m -> ContainsBlock text.
Proof.
  destruct m as [i r]. unfold exec. intros H.
  apply search_sound in H as (j & _ & _ & H).
  unfold codeBlockRegex in H. rewrite matchHere_chars in H.
  destruct (startsWith fenceOpen (skipn j text)) eqn:Hopen; [|discriminate].
  cbn [app matchHere] in H.
  apply star_sound in H as (j1 & _ & H).
  cbn [matchHere] in H.
  apply star_sound in H as (j2 & _ & H).
  rewrite matchHere_close in H.
  match type of H with
  | (if startsWith _ ?s then _ else _) = _ =>
      destruct (startsWith fenceClose s) eqn:Hclose; [|discriminate]
  end.
  apply startsWith_split in Hopen, Hclose.
  set (s1 := skipn (List.length fenceOpen) (skipn j text)) in *.
  set (s2 := skipn j1 s1) in *.
  exists (firstn j text), (firstn j1 s1 ++ firstn j2 s2),
         (skipn (List.length fenceClose) (skipn j2 s2)).
  rewrite <- app_assoc, <- Hclose.
  rewrite (firstn_skipn j2 s2). unfold s2. rewrite (firstn_skipn j1 s1).
  rewrite <- Hopen. symmetry. apply firstn_skipn.
Qed.

Lemma splitResponse_none (text : jsstring) :
  ~ ContainsBlock text -> splitResponse text = (text, None).
Proof.
  intros Hno. unfold splitResponse.
  destruct (exec codeBlockRegex text) as [m|] eqn:E; [|reflexivity].
  exfalso. apply Hno. exact (exec_contains _ _ E).
Qed.

(** *** Every text with a fenced block has a first one *)

Lemma first_occurrence (p s : jsstring) (n : nat) :
  (exists m, m < n /\ firstAt p s m = true)
  \/ (forall j, j < n -> startsWith p (skipn j s) = false).
Proof.
  induction n as [|n [(m & Hm & Hf)|IH]].
  - right. intros j Hj. lia.
  - left. exists m. split; [lia | exact Hf].
  - destruct (startsWith p (skipn n s)) eqn:E.
    + left. exists n. split; [lia|]. unfold firstAt. rewrite E, andb_true_r.
      apply forallb_forall. intros j Hj. apply in_seq in Hj.
      rewrite IH; [reflexivity | lia].
    + right. intros j Hj.
      destruct (Nat.eq_dec j n) as [->|]; [exact E | apply IH; lia].
Qed.

Lemma firstAt_exists (p s : jsstring) (n : nat) :
  startsWith p (skipn n s) = true ->
  exists m, m <= n /\ firstAt p s m = true.
Proof.
  intros H. destruct (first_occurrence p s (S n)) as [(m & Hm & Hf)|Hno].
  - exists m. split; [lia | exact Hf].
  - rewrite Hno in H; [discriminate | lia].
Qed.

Lemma occurrence_split (p s : jsstring) (n : nat) :
  p <> [] ->
  startsWith p (skipn n s) = true ->
  s = firstn n s ++ p ++ skipn (List.length p) (skipn n s)
  /\ List.length (firstn n s) = n.
Proof.
  intros Hp H. split.
  - rewrite <- (startsWith_split _ _ H). symmetry. apply firstn_skipn.
  - apply firstn_length_le.
    destruct (Nat.le_gt_cases n (List.length s)) as [?|Hgt]; [assumption|].
    rewrite skipn_all2 in H by lia.
    destruct p; [congruence | discriminate].
Qed.

Lemma leading_space (s : jsstring) :
  exists ws r, s = ws ++ r /\ forallb isWhiteSpace ws = true
               /\ startsWithSpace r = false.
Proof.
  induction s as [|c s (ws & r & -> & Hws & Hr)].
  - exists [], []. auto.
  - destruct (isWhiteSpace c) eqn:E.
    + exists (c :: ws), r. simpl. rewrite E. auto.
    + exists [], (c :: ws ++ r). simpl. auto.
Qed.

Lemma startsWith_fenceClose_head (s : jsstring) :
  startsWith fenceClose s = true -> startsWithSpace s = false.
Proof.
  destruct s as [|c s]; [reflexivity|]. simpl.
  destruct (N.eqb_spec c 96) as [->|]; [reflexivity | discriminate].
Qed.

(** A closing fence cannot start inside a run of white space. *)
Lemma close_after_space (ws r : jsstring) (q : nat) :
  forallb isWhiteSpace ws = true ->
  startsWith fenceClose (skipn q (ws ++ r)) = true ->
  exists q', q = List.length ws + q'.
Proof.
  revert q. induction ws as [|c ws IH]; intros q Hws H.
  - exists q. reflexivity.
  - simpl in Hws. apply andb_true_iff in Hws as [Hc Hws].
    destruct q as [|q].
    + apply startsWith_fenceClose_head in H. simpl in H. congruence.
    + destruct (IH q Hws H) as (q' & ->). exists q'. reflexivity.
Qed.

Theorem first_block_exists (text : jsstring) :
  ContainsBlock text ->
  exists pre ws body post, FirstBlock text pre ws body post.
Proof.
  intros (pre0 & mid & post0 & Htext).
  assert (Hocc : startsWith fenceOpen (skipn (List.length pre0) text) = true).
  { rewrite Htext, skipn_app_length. apply startsWith_app. }
  destruct (firstAt_exists _ _ _ Hocc) as (m & Hm & Hfirst).
  destruct (occurrence_split fenceOpen text m ltac:(discriminate)
              (firstAt_here _ _ _ Hfirst)) as (Hsplit & Hlen).
  set (rest := skipn (List.length fenceOpen) (skipn m text)) in *.
  destruct (leading_space rest) as (ws & r & Hrest & Hws & Hr).
  (* the closing fence of the given block lies in [rest] *)
  assert (Hc : startsWith fenceClose
                 (skipn (List.length pre0 - m + List.length mid) rest) = true).
  { unfold rest. rewrite <- !skipn_add.
    match goal with
    | |- context [skipn ?n text] =>
        replace n with (List.length pre0 + (List.length fenceOpen
                                            + (List.length mid + 0))) by lia
    end.
    rewrite Htext. rewrite !skipn_app_plus. apply startsWith_app. }
  rewrite Hrest in Hc.
  destruct (close_after_space _ _ _ Hws Hc) as (q' & Hq).
  rewrite Hq, skipn_app_plus in Hc.
  destruct (firstAt_exists _ _ _ Hc) as (k & _ & Hk).
  destruct (occurrence_split fenceClose r k ltac:(discriminate)
              (firstAt_here _ _ _ Hk)) as (Hr_split & Hk_len).
  exists (firstn m text), ws, (firstn k r),
         (skipn (List.length fenceClose) (skipn k r)).
  unfold FirstBlock. rewrite Hlen, Hk_len, <- Hr_split.
  repeat split.
  - rewrite <- Hrest. exact Hsplit.
  - exact Hfirst.
  - exact Hws.
  - destruct r as [|c r']; [now destruct k|].
    destruct k; [reflexivity | exact Hr].
  - exact Hk.
Qed.

End SplitterFacts.

(** ** The chat pipeline *)
Module ChatPipeline.

Import Regex StringFacts RegexFacts SplitterFacts Postport.

Lemma no_backtick_no_block (text : jsstring) :
  existsb (N.eqb 96) text = false -> ~ ContainsBlock text.
Proof.
  intros H (pre & mid & post & ->).
  rewrite existsb_app in H. apply orb_false_iff in H as [_ H].
  discriminate H.
Qed.

(** C5. A response text that contains no fenced JSON block is returned
    whole and unchanged as the narrative, with no pins payload; the
    pipeline then appends that text to the transcript and leaves the
    rest of the state, the pin list included, as it was. *)
Theorem no_block_whole_text_is_narrative (text : jsstring) :
  ~ ContainsBlock text ->
  splitResponse text = (text, None)
  /\ forall (JSON_parse : jsstring -> option value) (st : State),
       handleText JSON_parse text st =
       set_chatMessages
         (chatMessages st ++ [Message assistant text (Some true)]) st.
Proof.
  intros Hno. pose proof (splitResponse_none _ Hno) as Hsplit.
  split; [exact Hsplit|].
  intros JSON_parse st. unfold handleText. rewrite Hsplit. reflexivity.
Qed.

Lemma no_block_whole_text_is_narrative_witness :
  splitResponse (lit "Seoul is lovely in May.")
  = (lit "Seoul is lovely in May.", None).
Proof.
  apply (no_block_whole_text_is_narrative (lit "Seoul is lovely in May.")).
  apply no_backtick_no_block. reflexivity.
Defined.

(** C7. Submitting a chat input that is empty or made of white space
    only returns at the guard: no request is started and the whole state
    (transcript, pin list, effects) is unchanged. *)
Theorem blank_input_is_ignored
    (JSON_parse : jsstring -> option value) (st : State) :
  forallb isWhiteSpace (chatInput st) = true ->
  sendMessage_start st = (st, None)
  /\ step JSON_parse st Submit = st
  /\ count isFetch (step JSON_parse st Submit) = count isFetch st.
Proof.
  intros H. unfold step, sendMessage_start.
  rewrite (trim_blank _ H). repeat split; reflexivity.
Qed.

Lemma blank_input_is_ignored_witness :
  let st := set_chatInput [32; 9; 10; 160]%N initial in
  sendMessage_start st = (st, None)
  /\ step JSON.parse st Submit = st
  /\ count isFetch (step JSON.parse st Submit) = count isFetch st.
Proof.
  apply (blank_input_is_ignored JSON.parse
           (set_chatInput [32; 9; 10; 160]%N initial)).
  reflexivity.
Defined.



(** C4, amended. When the first fenced JSON block of a response has a
    content that [JSON.parse] rejects, the pin list (like everything but
    the transcript) is left as it was, and the narrative appended to the
    transcript is the text without that block, trimmed: what is before
    and after the block, less the white space at its two ends. *)
Theorem invalid_json_keeps_pins
    (JSON_parse : jsstring -> option value)
    (text pre ws body post : jsstring) (st : State) :
  FirstBlock text pre ws body post ->
  JSON_parse body = None ->
  exists narrative,
    Trimmed (pre ++ post) narrative
    /\ handleText JSON_parse text st =
         set_chatMessages
           (chatMessages st ++ [Message assistant narrative (Some true)]) st
    /\ mapPins (handleText JSON_parse text st) = mapPins st.
Proof.
  intros HB Hparse. exists (trim (pre ++ post)).
  assert (H : handleText JSON_parse text st =
              set_chatMessages
                (chatMessages st
                 ++ [Message assistant (trim (pre ++ post)) (Some true)]) st).
  { unfold handleText. rewrite (splitResponse_block _ _ _ _ _ HB).
    unfold pinsOfJson. destruct body; [reflexivity|].
    now rewrite Hparse. }
  split; [apply trim_Trimmed|].
  split; [exact H|]. rewrite H. now destruct st.
Qed.

Lemma invalid_json_keeps_pins_witness :
  let text := lit "  Try the market. ```json [{oops ``` Enjoy!   " in
  let st := set_mapPins [examplePin] initial in
  chatMessages (handleText JSON.parse text st) =
    [Message assistant (lit "Try the market.  Enjoy!") (Some true)]
  /\ mapPins (handleText JSON.parse text st) = [examplePin].
Proof.
  destruct (invalid_json_keeps_pins JSON.parse
              (lit "  Try the market. ```json [{oops ``` Enjoy!   ")
              (lit "  Try the market. ") (lit " ") (lit "[{oops ")
              (lit " Enjoy!   ") (set_mapPins [examplePin] initial))
    as (narrative & (lead & trail & _) & H1 & H2).
  - repeat split; reflexivity.
  - reflexivity.
  - cbv zeta. split; [|exact H2].
    assert (Hn : [Message assistant narrative (Some true)]
                 = [Message assistant (lit "Try the market.  Enjoy!")
                            (Some true)]).
    { pose proof (f_equal chatMessages H1) as E. vm_compute in E.
      symmetry. exact E. }
    rewrite H1. cbn [chatMessages set_chatMessages set_mapPins initial app].
    exact Hn.
Defined.

(** C4 as stated fails when the block that does not parse is not the
    first one: the first block decides, so here the pin list changes and
    the failing block stays in the narrative. *)
Lemma later_invalid_block_counterexample :
  let failing := fenceOpen ++ lit "{oops" ++ fenceClose in
  let text :=
    (fenceOpen ++ examplePayload ++ fenceClose) ++ lit " and " ++ failing in
  JSON.parse (lit "{oops") = None
  /\ mapPins initial = []
  /\ mapPins (handleText JSON.parse text initial) = [examplePin]
  /\ chatMessages (handleText JSON.parse text initial) =
     [Message assistant (lit "and " ++ failing) (Some true)].
Proof. cbv zeta. repeat split; reflexivity. Qed.

Lemma no_coordinates_guard (locations : list value) :
  lacksLatitude (nth 0 locations VUndefined)
  \/ lacksLongitude (nth 0 locations VUndefined) ->
  firstHasCoordinates locations = false.
Proof.
  unfold firstHasCoordinates, lacksLatitude, lacksLongitude.
  intros [[H1 H2] | [H1 H2]]; rewrite H1, H2; unfold js_or, js_and.
  - reflexivity.
  - destruct (truthy (get_opt _ (lit "lat"))) eqn:E1; cbn [truthy];
      try rewrite E1;
      destruct (truthy (get_opt _ (lit "latitude"))) eqn:E2; cbn [truthy];
      try rewrite E2; reflexivity.
Qed.

Lemma discarded_no_pins
    (JSON_parse : jsstring -> option value) (payload : jsstring) :
  Discarded (JSON_parse payload) ->
  pinsOfJson JSON_parse (Some payload) = None.
Proof.
  intros H. unfold pinsOfJson. destruct payload as [|c payload];
    [reflexivity|].
  inversion H as [Hp | v Hv Hp | locations Hl Hp].
  - reflexivity.
  - destruct v; try reflexivity. discriminate Hv.
  - now rewrite (no_coordinates_guard _ Hl).
Qed.

(** C2. Whenever a candidate payload has been extracted from a fenced
    JSON block and it does not parse, or parses to something that is not
    an array, or parses to an array whose first element lacks a
    latitude-like field or lacks a longitude-like field (so in particular
    when it lacks both), [setMapPins] is not called: the state changes
    only by the narrative message appended to the transcript, and the
    pin list is the prior one. *)
Theorem bad_payload_is_discarded
    (JSON_parse : jsstring -> option value)
    (text narrative payload : jsstring) (st : State) :
  splitResponse text = (narrative, Some payload) ->
  Discarded (JSON_parse payload) ->
  pinsOfJson JSON_parse (Some payload) = None
  /\ handleText JSON_parse text st =
       set_chatMessages
         (chatMessages st ++ [Message assistant narrative (Some true)]) st
  /\ mapPins (handleText JSON_parse text st) = mapPins st.
Proof.
  intros Hsplit Hbad.
  pose proof (discarded_no_pins _ _ Hbad) as Hnone.
  assert (H : handleText JSON_parse text st =
              set_chatMessages
                (chatMessages st
                 ++ [Message assistant narrative (Some true)]) st).
  { unfold handleText. rewrite Hsplit, Hnone. reflexivity. }
  repeat split; [exact Hnone | exact H |]. rewrite H. now destruct st.
Qed.

Lemma bad_payload_is_discarded_witness :
  let text := litq "Nothing nearby. ```json [{'name':'Cafe','lat':3}] ```" in
  let st := set_mapPins [MkPin VNull VNull VNull VNull VNull] initial in
  chatMessages (handleText JSON.parse text st) =
    [Message assistant (lit "Nothing nearby.") (Some true)]
  /\ mapPins (handleText JSON.parse text st) = mapPins st.
Proof.
  pose proof (bad_payload_is_discarded JSON.parse
     (litq "Nothing nearby. ```json [{'name':'Cafe','lat':3}] ```")
     (lit "Nothing nearby.") (litq "[{'name':'Cafe','lat':3}] ")
     (set_mapPins [MkPin VNull VNull VNull VNull VNull] initial)) as H.
  destruct H as (_ & H1 & H2).
  - reflexivity.
  - vm_compute. apply NoCoordinates. right. split; reflexivity.
  - split; [rewrite H1; reflexivity | exact H2].
Defined.

Lemma getEither_long (fields : list (jsstring * value)) (a b : jsstring) :
  lookup a fields = VUndefined ->
  getEither (VObj fields) a b = Some (lookup b fields).
Proof. intros H. unfold getEither, get. now rewrite H. Qed.

Lemma getEither_short (fields : list (jsstring * value)) (a b : jsstring) :
  lookup b fields = VUndefined ->
  lookup a fields <> VNull ->
  getEither (VObj fields) a b = Some (lookup a fields).
Proof.
  intros Hb Ha. unfold getEither, get.
  destruct (lookup a fields); cbn [nullish]; congruence.
Qed.

(** C3, amended. A record spelt with [latitude], [longitude] and [name]
    gives the same pin as the record spelt with [lat], [lng] and [label]
    that carries the same values, provided none of the three values is
    [null]. *)
Theorem long_and_short_keys_agree (long short : list (jsstring * value)) :
  LongForm long ->
  ShortForm short ->
  SameValues long short ->
  lookup (lit "lat") short <> VNull ->
  lookup (lit "lng") short <> VNull ->
  lookup (lit "label") short <> VNull ->
  toPin (VObj long) = toPin (VObj short)
  /\ toPin (VObj short) =
       Some (MkPin (lookup (lit "lat") short) (lookup (lit "lng") short)
                   (lookup (lit "label") short) (lookup (lit "icon") short)
                   (lookup (lit "description") short)).
Proof.
  intros (L1 & L2 & L3) (S1 & S2 & S3) (E1 & E2 & E3 & E4 & E5) N1 N2 N3.
  unfold toPin.
  rewrite (getEither_long _ _ _ L1), (getEither_long _ _ _ L2),
          (getEither_long _ _ _ L3).
  rewrite (getEither_short _ _ _ S1 N1), (getEither_short _ _ _ S2 N2),
          (getEither_short _ _ _ S3 N3).
  cbn [get]. rewrite E1, E2, E3, E4, E5. split; reflexivity.
Qed.

Lemma long_and_short_keys_agree_witness :
  toPin (VObj [(lit "latitude", VNum (Number false 37 0));
               (lit "name", VStr (lit "N Tower"));
               (lit "longitude", VNum (Number false 127 0))])
  = toPin (VObj [(lit "label", VStr (lit "N Tower"));
                 (lit "lat", VNum (Number false 37 0));
                 (lit "lng", VNum (Number false 127 0))]).
Proof.
  apply long_and_short_keys_agree;
    try (repeat split; reflexivity); discriminate.
Defined.

(** C3 as stated fails when a value is [null]: under [name] the null
    reaches the pin, under [label] it is replaced by [undefined]. *)
Lemma null_value_counterexample :
  let one := VNum (Number false 1 0) in
  let two := VNum (Number false 2 0) in
  let long := [(lit "latitude", one); (lit "longitude", two);
               (lit "name", VNull)] in
  let short := [(lit "lat", one); (lit "lng", two); (lit "label", VNull)] in
  JSON.parse (litq "{'latitude':1,'longitude':2,'name':null}")
    = Some (VObj long)
  /\ JSON.parse (litq "{'lat':1,'lng':2,'label':null}") = Some (VObj short)
  /\ LongForm long /\ ShortForm short /\ SameValues long short
  /\ toPin (VObj long) = Some (MkPin one two VNull VUndefined VUndefined)
  /\ toPin (VObj short)
     = Some (MkPin one two VUndefined VUndefined VUndefined)
  /\ toPin (VObj long) <> toPin (VObj short).
Proof.
  cbv zeta. repeat split; try reflexivity. discriminate.
Qed.

(** A location that is neither null nor undefined always gives a pin, and
    a coordinate it lacks is [undefined] in that pin. *)
Lemma toPin_defined (loc : value) :
  nullish loc = false ->
  exists pin, toPin loc = Some pin
              /\ (lacksLatitude loc -> lat pin = VUndefined)
              /\ (lacksLongitude loc -> lng pin = VUndefined).
Proof.
  intros Hloc.
  assert (Hget : forall k, get loc k = Some (get_opt loc k)).
  { intros k. unfold get_opt. destruct loc; try reflexivity; discriminate. }
  assert (Heither : forall a b,
            getEither loc a b =
            Some (coalesce (get_opt loc a) (get_opt loc b))).
  { intros a b. unfold getEither, coalesce. rewrite !Hget.
    now destruct (nullish (get_opt loc a)). }
  unfold toPin. rewrite !Heither, !Hget.
  eexists. split; [reflexivity|]. cbn [lat lng].
  split; intros [H1 H2]; now rewrite H1, H2.
Qed.

Lemma toPin_null (loc : value) : nullish loc = true -> toPin loc = None.
Proof. destruct loc; try discriminate; reflexivity. Qed.

Lemma mapPinsOf_defined (locations : list value) :
  Forall (fun loc => nullish loc = false) locations ->
  exists pins,
    mapPinsOf locations = Some pins
    /\ Forall2 (fun loc pin =>
                  toPin loc = Some pin
                  /\ (lacksLatitude loc -> lat pin = VUndefined)
                  /\ (lacksLongitude loc -> lng pin = VUndefined))
               locations pins.
Proof.
  induction 1 as [|loc rest Hloc _ (pins & Hpins & Hall)].
  - exists []. split; [reflexivity | constructor].
  - destruct (toPin_defined _ Hloc) as (pin & Hpin & Hlat & Hlng).
    exists (pin :: pins). cbn [mapPinsOf]. rewrite Hpin, Hpins.
    split; [reflexivity|]. constructor; auto.
Qed.

Lemma mapPinsOf_null (locations : list value) :
  Exists (fun loc => nullish loc = true) locations ->
  mapPinsOf locations = None.
Proof.
  induction 1 as [loc rest Hloc | loc rest _ IH]; cbn [mapPinsOf].
  - now rewrite (toPin_null _ Hloc).
  - rewrite IH. now destruct (toPin loc).
Qed.

(** C10, amended. The guard looks at the first element only.  When the
    payload parses to an array whose first element passes it and no
    element is null, every element becomes a pin, in order, and an
    element that lacks a latitude-like (longitude-like) field gives a pin
    whose [lat] ([lng]) is [undefined]; when some element is null the
    callback throws, the exception is swallowed and no pins are set. *)
Theorem guard_checks_first_element_only
    (JSON_parse : jsstring -> option value)
    (payload : jsstring) (locations : list value) :
  payload <> [] ->
  JSON_parse payload = Some (VArr locations) ->
  firstHasCoordinates locations = true ->
  (Forall (fun loc => nullish loc = false) locations ->
   exists pins,
     pinsOfJson JSON_parse (Some payload) = Some pins
     /\ Forall2 (fun loc pin =>
                   toPin loc = Some pin
                   /\ (lacksLatitude loc -> lat pin = VUndefined)
                   /\ (lacksLongitude loc -> lng pin = VUndefined))
                locations pins)
  /\ (Exists (fun loc => nullish loc = true) locations ->
      pinsOfJson JSON_parse (Some payload) = None).
Proof.
  intros Hne Hparse Hguard.
  assert (H : pinsOfJson JSON_parse (Some payload) = mapPinsOf locations).
  { unfold pinsOfJson. destruct payload; [congruence|].
    now rewrite Hparse, Hguard. }
  rewrite H. split.
  - apply mapPinsOf_defined.
  - apply mapPinsOf_null.
Qed.

Lemma guard_checks_first_element_only_witness :
  exists pins,
    pinsOfJson JSON.parse
      (Some (litq "[{'lat':1,'lng':2,'label':'A'},{'name':'B'},7]"))
    = Some pins
    /\ List.map lat pins = [VNum (Number false 1 0); VUndefined; VUndefined]
    /\ List.map label pins = [VStr (lit "A"); VStr (lit "B"); VUndefined].
Proof.
  destruct (guard_checks_first_element_only JSON.parse
              (litq "[{'lat':1,'lng':2,'label':'A'},{'name':'B'},7]")
              [VObj [(lit "lat", VNum (Number false 1 0));
                     (lit "lng", VNum (Number false 2 0));
                     (lit "label", VStr (lit "A"))];
               VObj [(lit "name", VStr (lit "B"))];
               VNum (Number false 7 0)]) as [H _].
  - discriminate.
  - reflexivity.
  - reflexivity.
  - destruct H as (pins & Hpins & _).
    + repeat constructor.
    + exists pins. split; [exact Hpins|].
      vm_compute in Hpins. injection Hpins as <-. split; reflexivity.
Defined.

(** C10 as stated fails on an array with a null element: the first
    element passes the guard, and yet no element becomes a pin. *)
Lemma null_element_counterexample :
  let payload := litq "[{'lat':1,'lng':2},null]" in
  let first := VObj [(lit "lat", VNum (Number false 1 0));
                     (lit "lng", VNum (Number false 2 0))] in
  JSON.parse payload = Some (VArr [first; VNull])
  /\ firstHasCoordinates [first; VNull] = true
  /\ pinsOfJson JSON.parse (Some payload) = None
  /\ mapPins (handleText JSON.parse
                (fenceOpen ++ payload ++ fenceClose) initial) = [].
Proof. cbv zeta. repeat split; reflexivity. Qed.

Lemma no_backtick_firstAt_close (body post : jsstring) :
  existsb (N.eqb 96) body = false ->
  firstAt fenceClose (body ++ fenceClose ++ post) (List.length body) = true.
Proof.
  intros Hbody. unfold firstAt.
  rewrite skipn_app_length, startsWith_app, andb_true_r.
  apply forallb_forall. intros j Hj. apply in_seq in Hj as [_ Hj].
  simpl in Hj. apply negb_true_iff.
  revert j Hj. induction body as [|c body IH]; intros j Hj;
    simpl in Hj; [lia|].
  cbn [existsb] in Hbody. apply orb_false_iff in Hbody as [Hc Hbody].
  destruct j as [|j].
  - change (((c =? 96)%N
             && startsWith [96; 96]%N (body ++ fenceClose ++ post)) = false).
    rewrite N.eqb_sym, Hc. reflexivity.
  - cbn [app skipn]. apply IH; [exact Hbody | lia].
Qed.

Lemma lexFrom_spaces (ws : jsstring) :
  forallb JSON.isJsonSpace ws = true -> JSON.lexFrom JSON.LIdle ws = Some [].
Proof.
  induction ws as [|c ws IH]; [reflexivity|].
  cbn [forallb]. intros H. apply andb_true_iff in H as [Hc Hws].
  cbn [JSON.lexFrom JSON.lexStep]. unfold JSON.lexIdle.
  rewrite Hc, (IH Hws). reflexivity.
Qed.

Lemma jsonSpace_no_backtick (ws : jsstring) :
  forallb JSON.isJsonSpace ws = true -> existsb (N.eqb 96) ws = false.
Proof.
  induction ws as [|c ws IH]; [reflexivity|].
  cbn [forallb existsb]. intros H. apply andb_true_iff in H as [Hc Hws].
  rewrite (IH Hws), orb_false_r.
  destruct (N.eqb_spec 96 c) as [<-|]; [discriminate Hc | reflexivity].
Qed.

(** One step of the lexer on a known character. *)
Ltac lex_char :=
  match goal with
  | |- context [JSON.lexFrom ?st (?c :: ?s)] =>
      change (JSON.lexFrom st (c :: s))
        with (match JSON.lexStep st c with
              | Some (st', ts) => option_map (app ts) (JSON.lexFrom st' s)
              | None => None
              end);
      let v := eval vm_compute in (JSON.lexStep st c) in
      change (JSON.lexStep st c) with v;
      cbv beta iota
  end.

Lemma parse_examplePayload (ws : jsstring) :
  forallb JSON.isJsonSpace ws = true ->
  JSON.parse (examplePayload ++ ws) =
  Some (VArr [VObj [(lit "lat", VNum (Number false 1 0));
                    (lit "lng", VNum (Number false 2 0));
                    (lit "label", VStr (lit "A"))]]).
Proof.
  intros Hws. unfold JSON.parse.
  let v := eval vm_compute in examplePayload in change examplePayload with v.
  cbn [app]. repeat lex_char. rewrite (lexFrom_spaces _ Hws).
  reflexivity.
Qed.

(** C6, amended. When the first fenced JSON block of a response holds
    the payload of the example, with any white space between the tag and
    the payload and nothing but spaces, tabs and line breaks between the
    payload and the closing fence, the pin list becomes the single pin
    with [lat] 1, [lng] 2 and [label] A, and the narrative appended to the
    transcript is the response without that block, trimmed of the white
    space at its two ends.  Only the first block counts: whatever follows
    it, further fenced blocks included, stays in the narrative. *)
Theorem example_block_gives_its_pin
    (pre ws ws' post : jsstring) (st : State) :
  let text :=
    pre ++ fenceOpen ++ ws ++ examplePayload ++ ws' ++ fenceClose ++ post in
  firstAt fenceOpen text (List.length pre) = true ->
  forallb isWhiteSpace ws = true ->
  forallb JSON.isJsonSpace ws' = true ->
  exists narrative,
    Trimmed (pre ++ post) narrative
    /\ handleText JSON.parse text st =
         set_mapPins [examplePin]
           (set_chatMessages
              (chatMessages st
               ++ [Message assistant narrative (Some true)]) st).
Proof.
  intros text Hfirst Hws Hws'.
  assert (HB : FirstBlock text pre ws (examplePayload ++ ws') post).
  { unfold FirstBlock. split; [|split; [|split; [|split]]].
    - unfold text. now rewrite <- app_assoc.
    - exact Hfirst.
    - exact Hws.
    - reflexivity.
    - apply no_backtick_firstAt_close. rewrite existsb_app.
      now rewrite (jsonSpace_no_backtick _ Hws'). }
  exists (trim (pre ++ post)). split; [apply trim_Trimmed|].
  unfold handleText. rewrite (splitResponse_block _ _ _ _ _ HB).
  cbv beta iota zeta.
  match goal with
  | |- context [pinsOfJson ?parse ?payload] =>
      assert (Hpins : pinsOfJson parse payload = Some [examplePin])
  end.
  { unfold pinsOfJson. rewrite (parse_examplePayload _ Hws'). reflexivity. }
  rewrite Hpins. reflexivity.
Qed.

Lemma example_block_gives_its_pin_witness :
  let text :=
    lit "  Start here: " ++ fenceOpen ++ [10%N; 160%N] ++ examplePayload
    ++ [10%N] ++ fenceClose
    ++ litq " Then more. ```json [{'lat':9,'lng':9}] ```  " in
  mapPins (handleText JSON.parse text initial) = [examplePin]
  /\ chatMessages (handleText JSON.parse text initial) =
     [Message assistant
        (litq "Start here:  Then more. ```json [{'lat':9,'lng':9}] ```")
        (Some true)].
Proof.
  destruct (example_block_gives_its_pin
              (lit "  Start here: ") [10%N; 160%N] [10%N]
              (litq " Then more. ```json [{'lat':9,'lng':9}] ```  ")
              initial) as (narrative & _ & H); try reflexivity.
  cbv zeta.
  assert (Hn : [Message assistant narrative (Some true)]
               = [Message assistant
                    (litq "Start here:  Then more. ```json [{'lat':9,'lng':9}] ```")
                    (Some true)]).
  { pose proof (f_equal chatMessages H) as E. vm_compute in E.
    symmetry. exact E. }
  rewrite H. cbn [chatMessages mapPins set_chatMessages set_mapPins initial app].
  split; [reflexivity | exact Hn].
Defined.

(** C6 as stated fails where it says that the narrative is the response
    with the block removed: what is left is trimmed as well. *)
Lemma narrative_is_trimmed_counterexample :
  let block := fenceOpen ++ examplePayload ++ fenceClose in
  let text := lit "Go " ++ block in
  mapPins (handleText JSON.parse text initial) = [examplePin]
  /\ chatMessages (handleText JSON.parse text initial) =
     [Message assistant (lit "Go") (Some true)]
  /\ lit "Go" <> lit "Go ".
Proof. cbv zeta. repeat split; try reflexivity. discriminate. Qed.

End ChatPipeline.

(** ** The map pane *)
Module MapLifecycle.

Import Postport.

(** What runs after the DOM update of [navigate]: the callbacks up to
    their [await], then the resumed ones.  A property kept by each part
    is kept by the whole. *)
Lemma callbacks_keep (P : State -> Prop) (first second : bool) (st : State) :
  (forall x, P x -> P (fst (initMap_await x))) ->
  (forall p x, P x -> P (initMap_resume p x)) ->
  P st ->
  P (let (st5, p1) := if first then initMap_await st else (st, None) in
     let (st6, p2) := if second then initMap_await st5 else (st5, None) in
     initMap_resume p2 (initMap_resume p1 st6)).
Proof.
  intros Hawait Hresume H.
  assert (H5 : P (fst (if first then initMap_await st else (st, None)))).
  { destruct first; [apply Hawait|]; exact H. }
  destruct (if first then initMap_await st else (st, None)) as [st5 p1].
  cbn [fst] in H5.
  assert (H6 : P (fst (if second then initMap_await st5 else (st5, None)))).
  { destruct second; [apply Hawait|]; exact H5. }
  destruct (if second then initMap_await st5 else (st5, None)) as [st6 p2].
  cbn [fst] in H6. now apply Hresume, Hresume.
Qed.

(** C1, amended. Leaving the map screen clears [mapInitialized] and
    creates nothing.  When the screen is left with the map initialized
    and the script loaded, and then entered again, the loader is called
    again, which appends no script; a new map is constructed on the new
    element and becomes the current instance; and the markers are
    rebuilt on it from the unchanged pin list. *)
Theorem reentry_creates_new_map (st : State) (s : Screen) :
  currentScreen st = Map ->
  mapInitialized st = true ->
  googleMaps st = true ->
  s <> Map ->
  let away := navigate s st in
  let back := navigate Map away in
  mapInitialized away = false
  /\ effects away = effects st
  /\ (exists added id element,
        effects back = effects st ++ added
        /\ In (MapConstructed id (Some element)) added
        /\ existsb isLoaderCalled added = true
        /\ existsb isScriptAppended added = false
        /\ mapInstance back = Some id
        /\ mapElement back = Some element
        /\ mapMarkers back = List.map (markerOn id) (mapPins st))
  /\ mapInitialized back = true
  /\ mapPins back = mapPins st.
Proof.
  intros Hscreen Hinit Hloaded Hs.
  destruct st as [scr ? ? ? inst ? ? ? ini loaded ? ? ? ? ? n ?].
  cbn [currentScreen mapInitialized googleMaps] in Hscreen, Hinit, Hloaded.
  subst scr ini loaded.
  destruct s; try congruence; destruct inst;
    (split; [reflexivity|]); (split; [reflexivity|]);
    (split; [|split; reflexivity]);
    exists [LoaderCalled; LoaderCalled; MapConstructed (S n) (Some n);
            MapConstructed (S (S n)) (Some n)], (S (S n)), n;
    cbv -[app List.map js_or markerOn]; rewrite <- ?app_assoc;
    repeat split; auto 10.
Qed.

Lemma reentry_creates_new_map_witness :
  let st := run JSON.parse initial [Click Map; ScriptLoad] in
  let back := navigate Map (navigate Chat st) in
  exists added id element,
    effects back = effects st ++ added
    /\ In (MapConstructed id (Some element)) added
    /\ mapInstance back = Some id.
Proof.
  pose proof (reentry_creates_new_map
                (run JSON.parse initial [Click Map; ScriptLoad]) Chat
                eq_refl eq_refl eq_refl ltac:(discriminate)) as H.
  cbv zeta in H.
  destruct H as (_ & _ & (added & id & element & H1 & H2 & _ & _ & H3 & _)
                 & _).
  exists added, id, element. auto.
Defined.

(** C1 as stated fails: entering the map screen, leaving it and entering
    it again constructs maps at each entry, four in all, and calls the
    loader four times (the script itself is appended once). *)
Lemma map_recreated_counterexample :
  let st := run JSON.parse initial
                [Click Map; ScriptLoad; Click Chat; Click Map] in
  effects st =
    [LoaderCalled; ScriptAppended; LoaderCalled;
     MapConstructed 1 (Some 0); MapConstructed 2 (Some 0);
     LoaderCalled; LoaderCalled;
     MapConstructed 4 (Some 3); MapConstructed 5 (Some 3)]
  /\ count isMapConstructed st = 4
  /\ count isLoaderCalled st = 4
  /\ mapInstance st = Some 5.
Proof. cbv zeta. repeat split; reflexivity. Qed.

(** *** The script is appended once *)

Ltac frame_crush :=
  unfold SameScript, count;
  cbv -[filter List.length app List.map js_or Nat.add isScriptAppended];
  rewrite ?filter_app, ?length_app;
  cbn [filter List.length isScriptAppended];
  rewrite ?Nat.add_0_r; auto.

Lemma SameScript_refl (st : State) : SameScript st st.
Proof. unfold SameScript. auto. Qed.

Lemma SameScript_trans (a b c : State) :
  SameScript a b -> SameScript b c -> SameScript a c.
Proof.
  unfold SameScript. intros (A1 & A2 & A3 & A4) (B1 & B2 & B3 & B4).
  repeat split; congruence.
Qed.

Lemma ScriptOnce_same (st st' : State) :
  SameScript st st' -> ScriptOnce st -> ScriptOnce st'.
Proof.
  unfold SameScript, ScriptOnce. intros (A1 & A2 & A3 & A4) [I1 I2].
  rewrite A1, A2, A3, A4. auto.
Qed.

Lemma createMap_same (st : State) : SameScript st (createMap st).
Proof. destruct st as [? ? ? ? inst ? ? ? ? ? ? ? ? ? ? ? ?]. frame_crush. Qed.

Lemma iter_createMap_same (n : nat) (st : State) :
  SameScript st (Nat.iter n createMap st).
Proof.
  induction n as [|n IH]; [apply SameScript_refl|].
  change (Nat.iter (S n) createMap st)
    with (createMap (Nat.iter n createMap st)).
  eapply SameScript_trans; [exact IH | apply createMap_same].
Qed.

Lemma updateMapPins_same (st : State) : SameScript st (updateMapPins st).
Proof.
  destruct st as [? ? ? ? inst ? ? ? ? ? ? ? ? ? ? ? ?].
  destruct inst; frame_crush.
Qed.

Lemma loadGoogleMaps_once (st : State) :
  ScriptOnce st -> ScriptOnce (fst (loadGoogleMaps st)).
Proof.
  destruct st as [? ? ? ? ? ? ? ? ? loaded tag flag ? ? ? ? eff].
  unfold ScriptOnce, count.
  cbn [effects scriptTag gmapsLoaded googleMaps]. intros [I1 I2].
  destruct loaded, tag, flag;
    try (specialize (I2 eq_refl); discriminate I2);
    cbv -[filter List.length app Nat.add isScriptAppended];
    rewrite ?filter_app, ?length_app;
    cbn [filter List.length isScriptAppended];
    rewrite ?Nat.add_0_r; split; auto; lia.
Qed.

Lemma initMap_await_once (st : State) :
  ScriptOnce st -> ScriptOnce (fst (initMap_await st)).
Proof.
  intros H. unfold initMap_await.
  destruct (mapElement st); [|exact H].
  destruct (mapInitialized st); [exact H|].
  pose proof (loadGoogleMaps_once _ H) as H'.
  now destruct (loadGoogleMaps st).
Qed.

Lemma initMap_resume_once (p : option Loading) (st : State) :
  ScriptOnce st -> ScriptOnce (initMap_resume p st).
Proof.
  intros H. destruct p as [[]|]; try exact H.
  exact (ScriptOnce_same _ _ (createMap_same st) H).
Qed.

Lemma navigate_once (s : Screen) (st : State) :
  ScriptOnce st -> ScriptOnce (navigate s st).
Proof.
  intros H. unfold navigate.
  destruct (Screen_eqb s (currentScreen st)); [exact H|].
  set (st1 := set_currentScreen s st).
  assert (H1 : ScriptOnce st1).
  { apply (ScriptOnce_same st); [|exact H]. destruct st. frame_crush. }
  assert (H2 : ScriptOnce (reactiveMarkers st1)).
  { unfold reactiveMarkers. destruct (mapInstance st1); [|exact H1].
    destruct (Screen_eqb _ _); [|exact H1].
    exact (ScriptOnce_same _ _ (updateMapPins_same st1) H1). }
  set (st2 := reactiveMarkers st1) in *.
  assert (H3 : ScriptOnce (reactiveReset st2)).
  { unfold reactiveReset. destruct (Screen_eqb _ _); [exact H2|].
    apply (ScriptOnce_same st2); [|exact H2]. destruct st2. frame_crush. }
  set (st3 := reactiveReset st2) in *.
  cbv zeta.
  apply (callbacks_keep ScriptOnce);
    [exact initMap_await_once | exact initMap_resume_once |].
  destruct (Screen_eqb s Map);
    (apply (ScriptOnce_same st3); [|exact H3]); destruct st3; frame_crush.
Qed.

Lemma scriptLoaded_once (st : State) :
  ScriptOnce st -> ScriptOnce (scriptLoaded st).
Proof.
  intros H. unfold scriptLoaded.
  destruct (scriptTag st && negb (gmapsLoaded st) && negb (scriptFailed st));
    [|exact H].
  eapply ScriptOnce_same; [apply iter_createMap_same|].
  destruct st. unfold ScriptOnce, count in *.
  cbn [set_onloadWaiter set_eventWaiters set_gmapsLoaded set_googleMaps
       effects scriptTag gmapsLoaded googleMaps] in *.
  destruct H as [I1 _]. split; [exact I1 | reflexivity].
Qed.

Lemma scriptError_once (st : State) :
  ScriptOnce st -> ScriptOnce (scriptError st).
Proof.
  intros H. unfold scriptError.
  destruct (scriptTag st && negb (gmapsLoaded st) && negb (scriptFailed st));
    [|exact H].
  apply (ScriptOnce_same st); [|exact H]. destruct st. frame_crush.
Qed.

Lemma sendMessage_start_once (st : State) :
  ScriptOnce st -> ScriptOnce (fst (sendMessage_start st)).
Proof.
  intros H. unfold sendMessage_start.
  destruct (trim (chatInput st)); [exact H|].
  apply (ScriptOnce_same st); [|exact H]. destruct st. frame_crush.
Qed.

Lemma handleText_same
    (JSON_parse : jsstring -> option value) (text : jsstring) (st : State) :
  SameScript st (handleText JSON_parse text st).
Proof.
  unfold handleText. destruct (splitResponse text) as [md js].
  destruct (pinsOfJson JSON_parse js); destruct st; frame_crush.
Qed.

Lemma sendMessage_resume_once
    (JSON_parse : jsstring -> option value) (outcome : FetchOutcome)
    (st : State) :
  ScriptOnce st -> ScriptOnce (sendMessage_resume JSON_parse outcome st).
Proof.
  intros H. unfold sendMessage_resume.
  match goal with
  | |- ScriptOnce (set_isLoading false ?x) =>
      assert (Hx : SameScript st x)
  end.
  { assert (Hc : SameScript st
                   (set_chatMessages (chatMessages st ++ [errorMessage]) st)).
    { destruct st. frame_crush. }
    destruct outcome as [| |data]; try exact Hc.
    destruct (responseText data) as [[]|]; try exact Hc.
    apply handleText_same. }
  match goal with
  | |- ScriptOnce (set_isLoading false ?x) =>
      apply (ScriptOnce_same x);
        [destruct x; frame_crush | exact (ScriptOnce_same _ _ Hx H)]
  end.
Qed.

Lemma step_once
    (JSON_parse : jsstring -> option value) (st : State) (e : Event) :
  ScriptOnce st -> ScriptOnce (step JSON_parse st e).
Proof.
  intros H. destruct e; cbn [step].
  - now apply navigate_once.
  - apply (ScriptOnce_same st); [|exact H]. destruct st. frame_crush.
  - now apply sendMessage_start_once.
  - now apply sendMessage_resume_once.
  - now apply scriptLoaded_once.
  - now apply scriptError_once.
Qed.

Lemma run_once
    (JSON_parse : jsstring -> option value) (events : list Event) :
  forall st, ScriptOnce st -> ScriptOnce (run JSON_parse st events).
Proof.
  induction events as [|e events IH]; intros st H; [exact H|].
  cbn [run fold_left]. apply IH. now apply step_once.
Qed.

Lemma createMap_resumed (st : State) :
  eventWaiters (createMap st) = eventWaiters st
  /\ onloadWaiter (createMap st) = onloadWaiter st
  /\ count isMapConstructed (createMap st) = S (count isMapConstructed st).
Proof.
  destruct st as [? ? ? ? inst ? ? ? ? ? ? ? ? ? ? ? ?]. unfold count.
  cbv -[filter List.length app List.map js_or Nat.add isMapConstructed].
  rewrite filter_app, length_app. cbn [filter List.length isMapConstructed].
  repeat split. lia.
Qed.

Lemma iter_createMap_resumed (n : nat) (st : State) :
  eventWaiters (Nat.iter n createMap st) = eventWaiters st
  /\ onloadWaiter (Nat.iter n createMap st) = onloadWaiter st
  /\ count isMapConstructed (Nat.iter n createMap st)
     = count isMapConstructed st + n.
Proof.
  induction n as [|n (IH1 & IH2 & IH3)].
  - cbn [Nat.iter nat_rect]. repeat split. lia.
  - change (Nat.iter (S n) createMap st)
      with (createMap (Nat.iter n createMap st)).
    destruct (createMap_resumed (Nat.iter n createMap st)) as (H1 & H2 & H3).
    rewrite H1, H2, H3, IH1, IH2, IH3. repeat split. lia.
Qed.

(** C8. In every run of the page the script is appended at most once,
    and a call of the loader never finds a state in which it could not
    answer.  A call made while the script tag exists appends nothing: it
    resolves at once when [google.maps] is there, and otherwise waits as
    one more listener of the load signal.  When that signal fires, every
    waiting promise is resolved (each resumed callback constructs its map)
    and again nothing is appended. *)
Theorem script_appended_at_most_once
    (JSON_parse : jsstring -> option value) :
  (forall events : list Event,
     let st := run JSON_parse initial events in
     count isScriptAppended st <= 1
     /\ snd (loadGoogleMaps st) <> Rejected)
  /\ (forall st : State,
        scriptTag st = true ->
        let st' := fst (loadGoogleMaps st) in
        let promise := snd (loadGoogleMaps st) in
        count isScriptAppended st' = count isScriptAppended st
        /\ (googleMaps st = true ->
            promise = Resolved /\ eventWaiters st' = eventWaiters st)
        /\ (googleMaps st = false -> gmapsLoaded st = false ->
            promise = Pending /\ eventWaiters st' = S (eventWaiters st)))
  /\ (forall st : State,
        scriptTag st = true -> gmapsLoaded st = false ->
        scriptFailed st = false ->
        let st' := scriptLoaded st in
        eventWaiters st' = 0 /\ onloadWaiter st' = false
        /\ googleMaps st' = true /\ gmapsLoaded st' = true
        /\ count isMapConstructed st' =
             count isMapConstructed st + eventWaiters st
             + (if onloadWaiter st then 1 else 0)
        /\ count isScriptAppended st' = count isScriptAppended st).
Proof.
  split; [|split].
  - intros events st.
    assert (H : ScriptOnce st).
    { apply run_once. split; [reflexivity | discriminate]. }
    destruct H as [H1 H2]. split.
    + rewrite H1. destruct (scriptTag st); lia.
    + unfold loadGoogleMaps.
      destruct st as [? ? ? ? ? ? ? ? ? loaded tag flag ? ? ? ? ?].
      cbn [emit googleMaps scriptTag gmapsLoaded] in *.
      destruct loaded; [discriminate|].
      destruct tag; [|discriminate].
      destruct flag; [|discriminate].
      specialize (H2 eq_refl). discriminate H2.
  - intros st Htag st' promise. subst st' promise.
    destruct st as [? ? ? ? ? ? ? ? ? loaded tag flag ? ? ? ? ?].
    cbn [scriptTag] in Htag. subst tag. unfold count.
    destruct loaded, flag;
      cbv -[filter List.length app Nat.add isScriptAppended];
      rewrite ?filter_app, ?length_app;
      cbn [filter List.length isScriptAppended]; rewrite ?Nat.add_0_r;
      repeat split; auto; discriminate.
  - intros st Htag Hflag Hfail st'. subst st'. unfold scriptLoaded.
    rewrite Htag, Hflag, Hfail. cbn [andb negb].
    match goal with
    | |- context [Nat.iter ?n createMap ?x] =>
        destruct (iter_createMap_resumed n x) as (H1 & H2 & H3);
        destruct (iter_createMap_same n x) as (_ & S2 & S3 & S4)
    end.
    rewrite H1, H2, H3, S2, S3, S4.
    destruct st. unfold count.
    cbn [set_onloadWaiter set_eventWaiters set_gmapsLoaded set_googleMaps
         effects eventWaiters onloadWaiter googleMaps gmapsLoaded].
    repeat split. lia.
Qed.

Lemma script_appended_at_most_once_witness :
  let st := run JSON.parse initial
                [Click Map; Click Chat; Click Map; ScriptLoad;
                 Click Home; Click Map] in
  count isScriptAppended st <= 1
  /\ count isLoaderCalled st = 6
  /\ count isMapConstructed st = 6.
Proof.
  cbv zeta. split.
  - exact (proj1 (proj1 (script_appended_at_most_once JSON.parse)
                    [Click Map; Click Chat; Click Map; ScriptLoad;
                     Click Home; Click Map])).
  - split; reflexivity.
Defined.

End MapLifecycle.

(** ** More on the response splitter *)
Module SplitterProps.

Import Regex StringFacts RegexFacts SplitterFacts Postport.

(** X1. A pins payload is extracted exactly from the texts that contain an
    opening fence with a closing fence somewhere after it. *)
Theorem payload_iff_block (text : jsstring) :
  snd (splitResponse text) <> None <-> ContainsBlock text.
Proof.
  split.
  - unfold splitResponse.
    destruct (exec codeBlockRegex text) as [m|] eqn:E.
    + intros _. exact (exec_contains _ _ E).
    + intros H. now contradiction H.
  - intros H. destruct (first_block_exists _ H) as (pre & ws & body & post & HB).
    rewrite (splitResponse_block _ _ _ _ _ HB). discriminate.
Qed.

Lemma startsWith_prefix (p a b : jsstring) (k : nat) :
  p <> [] ->
  startsWith p (skipn k a) = true ->
  k < List.length a /\ startsWith p (skipn k (a ++ b)) = true.
Proof.
  intros Hp H.
  assert (Hk : k < List.length a).
  { destruct (Nat.lt_ge_cases k (List.length a)) as [?|Hge]; [assumption|].
    rewrite skipn_all2 in H by lia. destruct p; [congruence | discriminate]. }
  split; [exact Hk|].
  rewrite skipn_app. replace (k - List.length a) with 0 by lia.
  cbn [skipn]. generalize dependent (skipn k a). clear.
  induction p as [|c p IH]; intros s H; [reflexivity|].
  destruct s as [|x s]; [discriminate|]. cbn [startsWith app] in *.
  apply andb_true_iff in H as [Hx Hs]. rewrite Hx. exact (IH _ Hs).
Qed.

(** X2. Every text that contains a fenced block is cut at its first one: the
    text is the part before the first opening fence, the fence, a run of
    white space, the payload, the first closing fence after it, and the
    rest; the narrative is what is before and after, trimmed.  The
    payload never starts with white space and never holds a closing
    fence. *)
Theorem split_at_first_block (text : jsstring) :
  ContainsBlock text ->
  exists pre ws payload post,
    text = pre ++ fenceOpen ++ ws ++ payload ++ fenceClose ++ post
    /\ splitResponse text = (trim (pre ++ post), Some payload)
    /\ (forall i, i < List.length pre ->
          startsWith fenceOpen (skipn i text) = false)
    /\ forallb isWhiteSpace ws = true
    /\ startsWithSpace payload = false
    /\ (forall k, startsWith fenceClose (skipn k payload) = false).
Proof.
  intros H. destruct (first_block_exists _ H) as (pre & ws & body & post & HB).
  exists pre, ws, body, post.
  pose proof (splitResponse_block _ _ _ _ _ HB) as Hsplit.
  destruct HB as (Htext & Hopen & Hws & Hbody & Hclose).
  repeat split; try assumption.
  - intros i Hi. exact (firstAt_before _ _ _ _ Hopen Hi).
  - intros k.
    destruct (startsWith fenceClose (skipn k body)) eqn:E; [|reflexivity].
    destruct (startsWith_prefix fenceClose body (fenceClose ++ post) k
                ltac:(discriminate) E) as [Hk Hocc].
    rewrite (firstAt_before _ _ _ _ Hclose Hk) in Hocc. discriminate.
Qed.

Lemma split_at_first_block_witness :
  exists pre ws payload post,
    lit "a ```json  [1] ``` b ``` c"
    = pre ++ fenceOpen ++ ws ++ payload ++ fenceClose ++ post
    /\ splitResponse (lit "a ```json  [1] ``` b ``` c")
       = (trim (pre ++ post), Some payload)
    /\ startsWithSpace payload = false.
Proof.
  destruct (split_at_first_block (lit "a ```json  [1] ``` b ``` c"))
    as (pre & ws & payload & post & H1 & H2 & _ & _ & H3 & _).
  - exists (lit "a "), (lit "  [1] "), (lit " b ``` c"). reflexivity.
  - exists pre, ws, payload, post. auto.
Defined.

(** X3. When a fenced block is found, the narrative shown has white space
    neither at its start nor at its end. *)
Theorem narrative_has_no_outer_space (text : jsstring) :
  ContainsBlock text ->
  startsWithSpace (fst (splitResponse text)) = false
  /\ startsWithSpace (rev (fst (splitResponse text))) = false.
Proof.
  intros H. destruct (first_block_exists _ H) as (pre & ws & body & post & HB).
  rewrite (splitResponse_block _ _ _ _ _ HB). cbn [fst]. apply trim_ends.
Qed.

Lemma narrative_has_no_outer_space_witness :
  startsWithSpace
    (fst (splitResponse (lit "  Hello  ```json [] ```  bye  "))) = false.
Proof.
  apply (narrative_has_no_outer_space (lit "  Hello  ```json [] ```  bye  ")).
  exists (lit "  Hello  "), (lit " [] "), (lit "  bye  "). reflexivity.
Defined.

End SplitterProps.

(** ** More on the chat pipeline *)
Module ChatProps.

Import Regex StringFacts SplitterFacts ChatPipeline Postport.

(** Every way [sendMessage] can end after the request has the same shape:
    one assistant message appended, [isLoading] cleared, and the pin list
    either kept or replaced. *)
Lemma resume_shape
    (JSON_parse : jsstring -> option value) (outcome : FetchOutcome)
    (st : State) :
  exists m pins,
    role m = assistant
    /\ (m = errorMessage \/ markdown m = Some true)
    /\ sendMessage_resume JSON_parse outcome st =
       set_isLoading false
         (set_mapPins pins (set_chatMessages (chatMessages st ++ [m]) st)).
Proof.
  assert (Hcaught : exists m pins,
            role m = assistant
            /\ (m = errorMessage \/ markdown m = Some true)
            /\ set_isLoading false
                 (set_chatMessages (chatMessages st ++ [errorMessage]) st) =
               set_isLoading false
                 (set_mapPins pins
                    (set_chatMessages (chatMessages st ++ [m]) st))).
  { exists errorMessage, (mapPins st). destruct st. repeat split; auto. }
  unfold sendMessage_resume.
  destruct outcome as [| |data]; try exact Hcaught.
  destruct (responseText data) as [[| | | |text| |]|]; try exact Hcaught.
  unfold handleText. destruct (splitResponse text) as [md js].
  destruct (pinsOfJson JSON_parse js) as [pins|].
  - exists (Message assistant md (Some true)), pins.
    destruct st. repeat split; auto.
  - exists (Message assistant md (Some true)), (mapPins st).
    destruct st. repeat split; auto.
Qed.

(** X4. Whatever the outcome of the request (rejected, not JSON, any JSON
    value), the continuation of [sendMessage] appends exactly one message,
    of role assistant, clears [isLoading], leaves the input box alone,
    sends nothing and touches nothing of the map pane. *)
Theorem reply_appends_one_assistant_message
    (JSON_parse : jsstring -> option value) (outcome : FetchOutcome)
    (st : State) :
  let st' := sendMessage_resume JSON_parse outcome st in
  (exists m, role m = assistant
             /\ chatMessages st' = chatMessages st ++ [m])
  /\ isLoading st' = false
  /\ chatInput st' = chatInput st
  /\ effects st' = effects st
  /\ SameMap st st'.
Proof.
  destruct (resume_shape JSON_parse outcome st) as (m & pins & Hm & _ & H).
  cbv zeta. rewrite H. destruct st. unfold SameMap.
  cbn [set_isLoading set_mapPins set_chatMessages chatMessages isLoading
       chatInput effects currentScreen mapInstance mapElement mapMarkers
       mapInitialized googleMaps scriptTag gmapsLoaded scriptFailed
       onloadWaiter eventWaiters nextId].
  split; [exists m; auto|]. repeat split; reflexivity.
Qed.

(** X5. Submitting twice in a row sends one request: the first call empties
    the input box, so the second returns at the guard and changes
    nothing. *)
Theorem second_submit_is_ignored (st : State) :
  let st1 := fst (sendMessage_start st) in
  sendMessage_start st1 = (st1, None).
Proof.
  cbv zeta. unfold sendMessage_start at 2 3.
  destruct (trim (chatInput st)) as [|c rest] eqn:E; cbn [fst].
  - unfold sendMessage_start. now rewrite E.
  - destruct st. reflexivity.
Qed.

(** X6. A non-blank input is sent and shown exactly as typed, without being
    trimmed: one request carrying it, one user message holding it, the
    input box emptied and [isLoading] set; pin list and map pane are
    untouched. *)
Theorem submit_sends_input_as_typed (st : State) :
  trim (chatInput st) <> [] ->
  let st' := fst (sendMessage_start st) in
  snd (sendMessage_start st) = Some (chatInput st)
  /\ effects st' = effects st ++ [Fetch (chatInput st)]
  /\ chatMessages st' =
       chatMessages st ++ [Message user (chatInput st) None]
  /\ chatInput st' = []
  /\ isLoading st' = true
  /\ mapPins st' = mapPins st
  /\ SameMap st st'.
Proof.
  intros H. cbv zeta. unfold sendMessage_start.
  destruct (trim (chatInput st)) as [|c rest]; [congruence|].
  destruct st. unfold SameMap.
  cbn [fst snd emit set_isLoading set_chatInput set_chatMessages
       chatMessages isLoading chatInput effects mapPins currentScreen
       mapInstance mapElement mapMarkers mapInitialized googleMaps scriptTag
       gmapsLoaded scriptFailed onloadWaiter eventWaiters nextId].
  rewrite filter_app. cbn [filter isPageEffect isFetch negb].
  rewrite app_nil_r. repeat split; reflexivity.
Qed.

Lemma submit_sends_input_as_typed_witness :
  let st := set_chatInput (lit "  hi there ") initial in
  effects (fst (sendMessage_start st)) = [Fetch (lit "  hi there ")]
  /\ chatMessages (fst (sendMessage_start st))
     = [Message user (lit "  hi there ") None].
Proof.
  destruct (submit_sends_input_as_typed
              (set_chatInput (lit "  hi there ") initial))
    as (_ & H1 & H2 & _).
  - vm_compute. discriminate.
  - split; [exact H1 | exact H2].
Defined.

(** X7. A response without usable candidates (the key is missing, null, or an
    empty array, as when the prompt is blocked) is shown as the fixed
    text [No response], rendered as markdown; the pin list is kept. *)
Theorem missing_candidates_fall_back
    (JSON_parse : jsstring -> option value)
    (fields : list (jsstring * value)) (st : State) :
  lookup (lit "candidates") fields = VUndefined
  \/ lookup (lit "candidates") fields = VNull
  \/ lookup (lit "candidates") fields = VArr [] ->
  sendMessage_resume JSON_parse (Body (VObj fields)) st =
    set_isLoading false
      (set_chatMessages
         (chatMessages st
          ++ [Message assistant (lit "[No response]") (Some true)]) st).
Proof.
  intros H. unfold sendMessage_resume, responseText. cbn [get].
  assert (Ht : js_or
                 (get_opt
                    (index0_opt
                       (get_opt
                          (get_opt
                             (index0_opt (lookup (lit "candidates") fields))
                             (lit "content")) (lit "parts"))) (lit "text"))
                 (VStr (lit "[No response]"))
               = VStr (lit "[No response]")).
  { destruct H as [-> | [-> | ->]]; reflexivity. }
  rewrite Ht.
  unfold handleText.
  replace (splitResponse (lit "[No response]"))
    with (lit "[No response]", @None jsstring) by reflexivity.
  reflexivity.
Qed.

Lemma missing_candidates_fall_back_witness :
  chatMessages
    (sendMessage_resume JSON.parse
       (Body (VObj [(lit "promptFeedback", VObj [])])) initial)
  = [Message assistant (lit "[No response]") (Some true)].
Proof.
  rewrite (missing_candidates_fall_back JSON.parse
             [(lit "promptFeedback", VObj [])] initial).
  - reflexivity.
  - left. reflexivity.
Defined.

(** X8. A body that is [null], or whose text is there but is not a string,
    makes the code throw before anything is shown; the outer [catch]
    turns that into the fixed error message, as for a failed request. *)
Theorem unusable_body_is_an_error
    (JSON_parse : jsstring -> option value) (data : value) (st : State) :
  responseText data = None
  \/ (exists v, responseText data = Some v /\ forall s, v <> VStr s) ->
  sendMessage_resume JSON_parse (Body data) st =
    set_isLoading false
      (set_chatMessages (chatMessages st ++ [errorMessage]) st).
Proof.
  intros [H | (v & H & Hv)]; unfold sendMessage_resume; rewrite H.
  - reflexivity.
  - destruct v; try reflexivity. now contradiction (Hv s).
Qed.

Lemma unusable_body_is_an_error_witness :
  chatMessages (sendMessage_resume JSON.parse (Body VNull) initial)
  = [errorMessage].
Proof.
  rewrite (unusable_body_is_an_error JSON.parse VNull initial).
  - reflexivity.
  - left. reflexivity.
Defined.

Lemma firstHasCoordinates_formula (locations : list value) :
  firstHasCoordinates locations =
    (truthy (get_opt (nth 0 locations VUndefined) (lit "lat"))
     && truthy (get_opt (nth 0 locations VUndefined) (lit "lng"))
     || truthy (get_opt (nth 0 locations VUndefined) (lit "latitude"))
        && truthy (get_opt (nth 0 locations VUndefined) (lit "longitude"))).
Proof.
  unfold firstHasCoordinates, js_or, js_and.
  destruct (truthy (get_opt _ (lit "lat"))) eqn:A;
    destruct (truthy (get_opt _ (lit "lng"))) eqn:B;
    destruct (truthy (get_opt _ (lit "latitude"))) eqn:C;
    destruct (truthy (get_opt _ (lit "longitude"))) eqn:D;
    cbn [andb orb]; rewrite ?A, ?B, ?C, ?D; try reflexivity;
    cbn [truthy]; rewrite ?A, ?B, ?C, ?D; reflexivity.
Qed.

(** X10. The guard is stricter than the normalizer.  When the first element
    has a falsy coordinate in each spelling (a zero, an empty string, a
    null, or a missing key, so also when it mixes [lat] with
    [longitude]), the whole payload is dropped, whatever the other
    elements are. *)
Theorem falsy_first_coordinate_drops_all
    (JSON_parse : jsstring -> option value)
    (payload : jsstring) (locations : list value) :
  JSON_parse payload = Some (VArr locations) ->
  let first := nth 0 locations VUndefined in
  truthy (get_opt first (lit "lat")) = false
  \/ truthy (get_opt first (lit "lng")) = false ->
  truthy (get_opt first (lit "latitude")) = false
  \/ truthy (get_opt first (lit "longitude")) = false ->
  pinsOfJson JSON_parse (Some payload) = None.
Proof.
  intros Hparse first Hshort Hlong. unfold pinsOfJson.
  destruct payload; [reflexivity|]. rewrite Hparse.
  rewrite firstHasCoordinates_formula. fold first.
  destruct Hshort as [-> | ->], Hlong as [-> | ->];
    rewrite ?andb_false_r; reflexivity.
Qed.

Lemma falsy_first_coordinate_drops_all_witness :
  pinsOfJson JSON.parse
    (Some (litq "[{'lat':0,'lng':127},{'lat':37,'lng':127}]")) = None
  /\ pinsOfJson JSON.parse
       (Some (litq "[{'lat':37,'longitude':127}]")) = None.
Proof.
  split.
  - apply (falsy_first_coordinate_drops_all JSON.parse
             (litq "[{'lat':0,'lng':127},{'lat':37,'lng':127}]")
             [VObj [(lit "lat", VNum (Number false 0 0));
                    (lit "lng", VNum (Number false 127 0))];
              VObj [(lit "lat", VNum (Number false 37 0));
                    (lit "lng", VNum (Number false 127 0))]]).
    + reflexivity.
    + left. reflexivity.
    + left. reflexivity.
  - apply (falsy_first_coordinate_drops_all JSON.parse
             (litq "[{'lat':37,'longitude':127}]")
             [VObj [(lit "lat", VNum (Number false 37 0));
                    (lit "longitude", VNum (Number false 127 0))]]).
    + reflexivity.
    + right. reflexivity.
    + left. reflexivity.
Defined.

(** X11. A good payload replaces the pin list wholesale: whatever the pins
    were before, after the reply they are exactly the pins of the new
    payload. *)
Theorem pins_are_replaced_wholesale
    (JSON_parse : jsstring -> option value)
    (text : jsstring) (pins : list Pin) (st : State) :
  pinsOfJson JSON_parse (snd (splitResponse text)) = Some pins ->
  mapPins (handleText JSON_parse text st) = pins
  /\ forall old,
       handleText JSON_parse text (set_mapPins old st) =
       handleText JSON_parse text st.
Proof.
  intros H. unfold handleText.
  destruct (splitResponse text) as [md js]. cbn [snd] in H. rewrite H.
  destruct st. split; [reflexivity | intros old; reflexivity].
Qed.

Lemma pins_are_replaced_wholesale_witness :
  let text := fenceOpen ++ examplePayload ++ fenceClose in
  let st := set_mapPins [MkPin VNull VNull VNull VNull VNull] initial in
  mapPins (handleText JSON.parse text st) = [examplePin].
Proof.
  apply (pins_are_replaced_wholesale JSON.parse
           (fenceOpen ++ examplePayload ++ fenceClose) [examplePin]
           (set_mapPins [MkPin VNull VNull VNull VNull VNull] initial)).
  reflexivity.
Defined.

End ChatProps.

(** ** More on the page: frames and invariants *)
Module PageProps.

Import Postport ChatProps.

Ltac page_cbv :=
  cbv -[filter List.length app List.map js_or Nat.add
        isFetch isPageEffect isMapConstructed isScriptAppended
        isLoaderCalled markerOn].

Ltac effects_norm :=
  rewrite ?filter_app;
  cbn [filter isFetch isPageEffect isMapConstructed isScriptAppended
       isLoaderCalled negb];
  rewrite ?app_nil_r.

(** *** [updateMapPins] *)

(** X12. Markers are replaced in full.  Without a map instance nothing
    happens; with one, the markers after the call are one per pin, in
    order, all on that instance, whatever markers there were before; and
    calling it twice is calling it once. *)
Theorem markers_are_rebuilt (st : State) :
  (mapInstance st = None -> updateMapPins st = st)
  /\ (forall m, mapInstance st = Some m ->
        mapMarkers (updateMapPins st) = List.map (markerOn m) (mapPins st)
        /\ List.length (mapMarkers (updateMapPins st))
           = List.length (mapPins st)
        /\ forall old,
             updateMapPins (set_mapMarkers old st) = updateMapPins st)
  /\ updateMapPins (updateMapPins st) = updateMapPins st.
Proof.
  destruct st as [? ? ? ? inst ? ? ? ? ? ? ? ? ? ? ? ?].
  unfold updateMapPins. cbn [mapInstance].
  split; [|split].
  - now intros ->.
  - intros m ->.
    cbn [set_mapMarkers mapMarkers mapPins mapInstance].
    split; [reflexivity|]. split; [apply length_map | reflexivity].
  - destruct inst; reflexivity.
Qed.

(** *** Frames *)

Lemma SameChat_refl (st : State) : SameChat st st.
Proof. unfold SameChat. auto. Qed.

Lemma SameChat_trans (a b c : State) :
  SameChat a b -> SameChat b c -> SameChat a c.
Proof.
  unfold SameChat.
  intros (A1 & A2 & A3 & A4 & A5) (B1 & B2 & B3 & B4 & B5).
  repeat split; congruence.
Qed.

Lemma createMap_chat (st : State) : SameChat st (createMap st).
Proof.
  destruct st as [? ? ? ? inst ? ? ? ? ? ? ? ? ? ? ? ?].
  unfold SameChat. destruct inst; page_cbv; effects_norm;
    repeat split; reflexivity.
Qed.

Lemma iter_createMap_chat (n : nat) (st : State) :
  SameChat st (Nat.iter n createMap st).
Proof.
  induction n as [|n IH]; [apply SameChat_refl|].
  change (Nat.iter (S n) createMap st)
    with (createMap (Nat.iter n createMap st)).
  eapply SameChat_trans; [exact IH | apply createMap_chat].
Qed.

Lemma navigate_chat (s : Screen) (st : State) : SameChat st (navigate s st).
Proof.
  destruct st as [scr ? ? ? inst ? ? ? ini loaded tag flag ? ? ? ? ?].
  unfold SameChat.
  destruct s, scr, inst, ini, loaded, tag, flag;
    page_cbv; effects_norm; repeat split; reflexivity.
Qed.

Lemma scriptLoaded_chat (st : State) : SameChat st (scriptLoaded st).
Proof.
  unfold scriptLoaded.
  destruct (scriptTag st && negb (gmapsLoaded st) && negb (scriptFailed st));
    [|apply SameChat_refl].
  eapply SameChat_trans; [|apply iter_createMap_chat].
  destruct st. unfold SameChat. repeat split; reflexivity.
Qed.

Lemma scriptError_chat (st : State) : SameChat st (scriptError st).
Proof.
  unfold scriptError.
  destruct (scriptTag st && negb (gmapsLoaded st) && negb (scriptFailed st));
    [|apply SameChat_refl].
  destruct st. unfold SameChat. repeat split; reflexivity.
Qed.

(** X13. Navigation and the script's load and error events never touch the
    chat: input box, transcript, loading flag and pin list stay as they
    are, and no chat request is sent. *)
Theorem map_events_leave_chat_alone
    (JSON_parse : jsstring -> option value) (st : State) (s : Screen) :
  SameChat st (step JSON_parse st (Click s))
  /\ SameChat st (step JSON_parse st ScriptLoad)
  /\ SameChat st (step JSON_parse st ScriptError).
Proof.
  cbn [step]. split; [apply navigate_chat|].
  split; [apply scriptLoaded_chat | apply scriptError_chat].
Qed.

Lemma SameMap_refl (st : State) : SameMap st st.
Proof. unfold SameMap. repeat split; reflexivity. Qed.

Lemma start_map (st : State) : SameMap st (fst (sendMessage_start st)).
Proof.
  unfold sendMessage_start.
  destruct (trim (chatInput st)); [apply SameMap_refl|].
  destruct st. unfold SameMap. page_cbv. effects_norm.
  repeat split; reflexivity.
Qed.

Lemma resume_map
    (JSON_parse : jsstring -> option value) (outcome : FetchOutcome)
    (st : State) :
  SameMap st (sendMessage_resume JSON_parse outcome st).
Proof.
  destruct (resume_shape JSON_parse outcome st) as (m & pins & _ & _ & H).
  rewrite H. destruct st. unfold SameMap. repeat split; reflexivity.
Qed.

(** X14. Typing, submitting and the arrival of a reply never touch the map
    pane: screen, map instance, map element, markers, the loader's state
    and every effect other than the chat request are unchanged.  In
    particular new pins that arrive while the map is shown do not move
    the markers. *)
Theorem chat_events_leave_map_alone
    (JSON_parse : jsstring -> option value) (st : State)
    (s : jsstring) (outcome : FetchOutcome) :
  SameMap st (step JSON_parse st (Input s))
  /\ SameMap st (step JSON_parse st Submit)
  /\ SameMap st (step JSON_parse st (Reply outcome)).
Proof.
  cbn [step]. split; [|split].
  - destruct st. unfold SameMap. repeat split; reflexivity.
  - apply start_map.
  - apply resume_map.
Qed.

(** *** The transcript *)

Lemma step_transcript
    (JSON_parse : jsstring -> option value) (st : State) (e : Event) :
  exists suffix,
    chatMessages (step JSON_parse st e) = chatMessages st ++ suffix
    /\ Forall HtmlOnlyAssistant suffix.
Proof.
  assert (Hsame : forall st', SameChat st st' ->
            exists suffix, chatMessages st' = chatMessages st ++ suffix
                           /\ Forall HtmlOnlyAssistant suffix).
  { intros st' (_ & H & _). exists []. rewrite app_nil_r. auto. }
  destruct e as [s|s| |outcome| |]; cbn [step].
  - apply Hsame, navigate_chat.
  - exists []. rewrite app_nil_r. split; [now destruct st | constructor].
  - unfold sendMessage_start.
    destruct (trim (chatInput st)); cbn [fst].
    + exists []. rewrite app_nil_r. auto.
    + exists [Message user (chatInput st) None].
      split; [now destruct st|].
      constructor; [|constructor]. intros H. now contradiction H.
  - destruct (resume_shape JSON_parse outcome st) as (m & pins & Hm & _ & H).
    exists [m]. rewrite H. split; [now destruct st|].
    constructor; [|constructor]. intros _. exact Hm.
  - apply Hsame, scriptLoaded_chat.
  - apply Hsame, scriptError_chat.
Qed.

Lemma run_transcript
    (JSON_parse : jsstring -> option value) (events : list Event) :
  forall st,
    exists suffix,
      chatMessages (run JSON_parse st events) = chatMessages st ++ suffix
      /\ Forall HtmlOnlyAssistant suffix.
Proof.
  induction events as [|e events IH]; intros st.
  - exists []. rewrite app_nil_r. split; [reflexivity | constructor].
  - cbn [run fold_left].
    destruct (step_transcript JSON_parse st e) as (s1 & H1 & F1).
    destruct (IH (step JSON_parse st e)) as (s2 & H2 & F2).
    exists (s1 ++ s2). unfold run in H2. rewrite H2, H1, app_assoc.
    split; [reflexivity | now apply Forall_app].
Qed.

(** X15. The transcript is append-only: whatever happens on the page, the
    messages already shown stay, in place and unchanged, and new ones
    go after them. *)
Theorem transcript_only_grows
    (JSON_parse : jsstring -> option value) (events : list Event)
    (st : State) :
  exists suffix,
    chatMessages (run JSON_parse st events) = chatMessages st ++ suffix.
Proof.
  destruct (run_transcript JSON_parse events st) as (suffix & H & _).
  now exists suffix.
Qed.

(** X16. In every run of the page, only assistant messages carry the
    [markdown] flag: what the user typed is never handed to [marked] and
    [@html], it is always rendered as plain text. *)
Theorem user_text_is_never_html
    (JSON_parse : jsstring -> option value) (events : list Event) :
  Forall HtmlOnlyAssistant (chatMessages (run JSON_parse initial events))
  /\ Forall (fun m => role m = user -> markdown m = None)
            (chatMessages (run JSON_parse initial events)).
Proof.
  destruct (run_transcript JSON_parse events initial) as (suffix & H & F).
  rewrite H. cbn [initial chatMessages app].
  split; [exact F|].
  eapply Forall_impl; [|exact F].
  intros m Hm Hu. unfold HtmlOnlyAssistant in Hm.
  destruct (markdown m) as [b|]; [|reflexivity].
  assert (Ha : role m = assistant) by (apply Hm; discriminate).
  congruence.
Qed.

(** *** The map element *)

Lemma iter_createMap_screen (n : nat) (st : State) :
  currentScreen (Nat.iter n createMap st) = currentScreen st
  /\ mapElement (Nat.iter n createMap st) = mapElement st.
Proof.
  induction n as [|n [IH1 IH2]]; [split; reflexivity|].
  change (Nat.iter (S n) createMap st)
    with (createMap (Nat.iter n createMap st)).
  rewrite <- IH1, <- IH2.
  destruct (Nat.iter n createMap st) as [? ? ? ? inst ? ? ? ? ? ? ? ? ? ? ? ?].
  destruct inst; split; reflexivity.
Qed.

Lemma step_element
    (JSON_parse : jsstring -> option value) (st : State) (e : Event) :
  ElementOnMapScreen st -> ElementOnMapScreen (step JSON_parse st e).
Proof.
  assert (Hsame : forall st', SameMap st st' ->
            ElementOnMapScreen st -> ElementOnMapScreen st').
  { unfold SameMap, ElementOnMapScreen.
    intros st' (H1 & _ & H3 & _). now rewrite H1, H3. }
  assert (Hkeep : forall st',
            currentScreen st' = currentScreen st ->
            mapElement st' = mapElement st ->
            ElementOnMapScreen st -> ElementOnMapScreen st').
  { unfold ElementOnMapScreen. intros st' -> ->. auto. }
  destruct e as [s|s| |outcome| |]; cbn [step].
  - destruct st as [scr ? ? ? inst el ? ? ini loaded tag flag ? ? ? ? ?].
    unfold ElementOnMapScreen. cbn [mapElement currentScreen].
    intros H.
    destruct s, scr, inst, ini, loaded, tag, flag;
      page_cbv; try exact H; split; intros; congruence.
  - apply Hsame. destruct st. unfold SameMap. repeat split; reflexivity.
  - apply Hsame, start_map.
  - apply Hsame, resume_map.
  - unfold scriptLoaded.
    destruct (scriptTag st && negb (gmapsLoaded st)
              && negb (scriptFailed st)); [|auto].
    match goal with
    | |- _ -> ElementOnMapScreen (Nat.iter ?n createMap ?x) =>
        destruct (iter_createMap_screen n x) as [H1 H2]
    end.
    apply Hkeep; [rewrite H1 | rewrite H2]; now destruct st.
  - unfold scriptError.
    destruct (scriptTag st && negb (gmapsLoaded st)
              && negb (scriptFailed st)); [|auto].
    apply Hkeep; now destruct st.
Qed.

(** X17. In every run of the page the map element is bound exactly while the
    map screen is shown. *)
Theorem map_element_bound_on_map_screen
    (JSON_parse : jsstring -> option value) (events : list Event) :
  ElementOnMapScreen (run JSON_parse initial events).
Proof.
  assert (H : forall st, ElementOnMapScreen st ->
                         ElementOnMapScreen (run JSON_parse st events)).
  { induction events as [|e events IH]; intros st Hst; [exact Hst|].
    cbn [run fold_left]. apply IH. now apply step_element. }
  apply H. unfold ElementOnMapScreen. cbn. split; [congruence | discriminate].
Qed.

(** *** A failed script load *)

(** What a step keeps once the script has failed. *)
Lemma step_dead
    (JSON_parse : jsstring -> option value) (st : State) (e : Event) :
  ScriptDead st ->
  ScriptDead (step JSON_parse st e)
  /\ mapInstance (step JSON_parse st e) = mapInstance st
  /\ filter isMapConstructed (effects (step JSON_parse st e))
     = filter isMapConstructed (effects st)
  /\ filter isScriptAppended (effects (step JSON_parse st e))
     = filter isScriptAppended (effects st).
Proof.
  intros Hdead.
  assert (Hid : ScriptDead st /\ mapInstance st = mapInstance st
                /\ filter isMapConstructed (effects st)
                   = filter isMapConstructed (effects st)
                /\ filter isScriptAppended (effects st)
                   = filter isScriptAppended (effects st)) by auto.
  destruct e as [s|s| |outcome| |]; cbn [step].
  - destruct st as [scr ? ? ? inst ? ? ? ini loaded tag flag failed ? ? ? ?].
    destruct Hdead as (H1 & H2 & H3 & H4).
    cbn [scriptFailed scriptTag googleMaps gmapsLoaded] in H1, H2, H3, H4.
    subst. unfold ScriptDead.
    destruct s, scr, inst, ini; page_cbv; effects_norm;
      repeat split; reflexivity.
  - destruct st. exact Hid.
  - unfold sendMessage_start. destruct (trim (chatInput st)); [exact Hid|].
    destruct st. unfold ScriptDead in *.
    cbn [fst emit set_isLoading set_chatInput set_chatMessages effects
         mapInstance scriptFailed scriptTag googleMaps gmapsLoaded] in *.
    effects_norm. auto.
  - destruct (resume_shape JSON_parse outcome st) as (m & pins & _ & _ & H).
    rewrite H. destruct st. exact Hid.
  - unfold scriptLoaded. destruct Hdead as (H1 & H2 & _).
    rewrite H1, H2, andb_false_r. exact Hid.
  - unfold scriptError. destruct Hdead as (H1 & H2 & _).
    rewrite H1, H2, andb_false_r. exact Hid.
Qed.

Lemma run_dead
    (JSON_parse : jsstring -> option value) (events : list Event) :
  forall st,
    ScriptDead st ->
    mapInstance (run JSON_parse st events) = mapInstance st
    /\ filter isMapConstructed (effects (run JSON_parse st events))
       = filter isMapConstructed (effects st)
    /\ filter isScriptAppended (effects (run JSON_parse st events))
       = filter isScriptAppended (effects st).
Proof.
  induction events as [|e events IH]; intros st Hdead; [auto|].
  cbn [run fold_left].
  destruct (step_dead JSON_parse st e Hdead) as (Hd & H1 & H2 & H3).
  destruct (IH _ Hd) as (I1 & I2 & I3). unfold run in *.
  rewrite I1, I2, I3. auto.
Qed.

(** X18. A failed script load is final.  Once the script's error event has
    fired during loading, no later sequence of events constructs a map
    or requests the script again: the map instance stays what it was. *)
Theorem failed_script_is_final
    (JSON_parse : jsstring -> option value) (st : State)
    (events : list Event) :
  scriptTag st = true ->
  googleMaps st = false ->
  gmapsLoaded st = false ->
  scriptFailed st = false ->
  let st' := run JSON_parse st (ScriptError :: events) in
  count isMapConstructed st' = count isMapConstructed st
  /\ count isScriptAppended st' = count isScriptAppended st
  /\ mapInstance st' = mapInstance st.
Proof.
  intros Htag Hmaps Hflag Hfail. cbv zeta. cbn [run fold_left step].
  assert (Hdead : ScriptDead (scriptError st)
                  /\ mapInstance (scriptError st) = mapInstance st
                  /\ effects (scriptError st) = effects st).
  { unfold scriptError. rewrite Htag, Hflag, Hfail. cbn [andb negb].
    destruct st. unfold ScriptDead.
    cbn [scriptFailed scriptTag googleMaps gmapsLoaded] in *.
    subst. repeat split; reflexivity. }
  destruct Hdead as (Hdead & Hinst & Heff).
  destruct (run_dead JSON_parse events _ Hdead) as (I1 & I2 & I3).
  unfold run in *. unfold count. rewrite I1, I2, I3, Hinst, Heff. auto.
Qed.

Lemma failed_script_is_final_witness :
  let st := run JSON.parse initial [Click Map] in
  count isMapConstructed
    (run JSON.parse st
         [ScriptError; Click Chat; Click Map; ScriptLoad; Click Home;
          Click Map]) = 0.
Proof.
  pose proof (failed_script_is_final JSON.parse
                (run JSON.parse initial [Click Map])
                [Click Chat; Click Map; ScriptLoad; Click Home; Click Map]
                eq_refl eq_refl eq_refl eq_refl) as H.
  cbv zeta in H. destruct H as (H & _). cbv zeta. rewrite H. reflexivity.
Defined.

(** *** Entering the map screen *)

(** The first reactive statement runs again once a map has been
    constructed; it rebuilds the markers that [createMap] has just built,
    so the state is the same. *)
Lemma markers_rerun_after_createMap (st : State) :
  reactiveMarkers (createMap st) = createMap st.
Proof.
  destruct st as [scr ? ? ? inst ? ? ? ? ? ? ? ? ? ? ? ?].
  destruct scr, inst; reflexivity.
Qed.

(** X19. The first visit.  On entering the map screen with no script in
    the document the map-init callback runs twice, once for the change of
    screen and once for the binding of the element: the loader is called
    twice and appends the script once, the second call waiting for the
    load signal, and no map exists yet.  When the script has loaded both
    callbacks resume: two maps are constructed on the element of the
    screen, the later one is the current instance, and the markers are
    those of the current pin list on it. *)
Theorem first_visit_appends_script_once (st : State) :
  currentScreen st <> Map ->
  mapInitialized st = false ->
  scriptTag st = false ->
  googleMaps st = false ->
  gmapsLoaded st = false ->
  scriptFailed st = false ->
  eventWaiters st = 0 ->
  let waiting := navigate Map st in
  let ready := scriptLoaded waiting in
  effects waiting = effects st ++ [LoaderCalled; ScriptAppended; LoaderCalled]
  /\ mapInstance waiting = mapInstance st
  /\ mapInitialized waiting = false
  /\ effects ready =
       effects st
       ++ [LoaderCalled; ScriptAppended; LoaderCalled;
           MapConstructed (S (nextId st)) (Some (nextId st));
           MapConstructed (S (S (nextId st))) (Some (nextId st))]
  /\ mapInstance ready = Some (S (S (nextId st)))
  /\ mapInitialized ready = true
  /\ mapMarkers ready
     = List.map (markerOn (S (S (nextId st)))) (mapPins st).
Proof.
  intros Hscr Hini Htag Hmaps Hflag Hfail Hwait.
  destruct st as [scr ? ? ? inst ? ? ? ini loaded tag flag failed ? w ? ?].
  cbn [currentScreen mapInitialized scriptTag googleMaps gmapsLoaded
       scriptFailed eventWaiters] in *.
  subst ini tag loaded flag failed w.
  destruct scr; try congruence; destruct inst;
    cbv -[app List.map js_or markerOn]; rewrite <- ?app_assoc;
    repeat split; reflexivity.
Qed.

Lemma first_visit_appends_script_once_witness :
  effects (scriptLoaded (navigate Map initial))
  = [LoaderCalled; ScriptAppended; LoaderCalled;
     MapConstructed 1 (Some 0); MapConstructed 2 (Some 0)].
Proof.
  pose proof (first_visit_appends_script_once initial
                ltac:(discriminate) eq_refl eq_refl eq_refl eq_refl eq_refl
                eq_refl) as H.
  cbv zeta in H. destruct H as (_ & _ & _ & H & _). exact H.
Defined.



(** X21. Leaving while the script loads.  If the user enters the map
    screen, leaves it and comes back before the script has loaded, the
    script is still appended once, but the four pending callbacks (two
    for each entry) all resume at the load event, and four maps are
    constructed on the element now shown. *)
Theorem return_while_loading_builds_four_maps (st : State) (s : Screen) :
  currentScreen st <> Map ->
  mapInitialized st = false ->
  scriptTag st = false ->
  googleMaps st = false ->
  gmapsLoaded st = false ->
  scriptFailed st = false ->
  eventWaiters st = 0 ->
  s <> Map ->
  let st' :=
    scriptLoaded (navigate Map (navigate s (navigate Map st))) in
  effects st' =
    effects st
    ++ [LoaderCalled; ScriptAppended; LoaderCalled; LoaderCalled;
        LoaderCalled;
        MapConstructed (2 + nextId st) (Some (1 + nextId st));
        MapConstructed (3 + nextId st) (Some (1 + nextId st));
        MapConstructed (4 + nextId st) (Some (1 + nextId st));
        MapConstructed (5 + nextId st) (Some (1 + nextId st))]
  /\ mapInstance st' = Some (5 + nextId st).
Proof.
  intros Hscr Hini Htag Hmaps Hflag Hfail Hwait Hs.
  destruct st as [scr ? ? ? inst ? ? ? ini loaded tag flag failed ? w ? ?].
  cbn [currentScreen mapInitialized scriptTag googleMaps gmapsLoaded
       scriptFailed eventWaiters] in *.
  subst ini tag loaded flag failed w.
  destruct scr; try congruence; destruct s; try congruence; destruct inst;
    cbv -[app List.map js_or markerOn]; rewrite <- ?app_assoc;
    repeat split; reflexivity.
Qed.

Lemma return_while_loading_builds_four_maps_witness :
  count isMapConstructed
    (scriptLoaded (navigate Map (navigate Chat (navigate Map initial)))) = 4.
Proof.
  pose proof (return_while_loading_builds_four_maps initial Chat
                ltac:(discriminate) eq_refl eq_refl eq_refl eq_refl eq_refl
                eq_refl ltac:(discriminate)) as H.
  cbv zeta in H. destruct H as (H & _).
  unfold count. rewrite H. reflexivity.
Defined.

End PageProps.
